(** * Expression-inl.h: value and Jacobian propagation through expression nodes

    A shallow embedding of [gtsam_unstable/nonlinear/Expression-inl.h]:
    the class [Augmented<T>] (a value with its map of Jacobian blocks), and
    the node hierarchy [ConstantExpression], [LeafExpression],
    [UnaryExpression], [BinaryExpression] and [TernaryExpression] with their
    three virtual methods [keys], [value] and [augmented]. *)

From Stdlib Require Import PrimFloat.
From stdpp Require Import base option list gmap fin_maps fin_map_dom.

Set Default Proof Using "Type".
#[local] Set Warnings "-clear-no-such-hyp".

(** [Key], the unsigned integer under which [Values] stores a variable; its
    declaration is outside the header. *)
Abbreviation Key := N (only parsing).

(** The two failures of the typed lookup [Values::at<T>]: the key is
    missing, or it holds a value of another type. *)
Inductive ValuesError : Type :=
| ValuesKeyDoesNotExist (j : Key)
| ValuesIncorrectType (j : Key).

(** ** The evaluation monad

    [value] and [augmented] either return or propagate the exception of a
    failed lookup.  Every call of a wrapped [function_] is recorded with the
    state of its [boost::optional<Matrix&>] slots ([true]: the slot refers to
    a matrix to fill, [false]: [boost::none]), which is what a call-counting
    stub passed as [function_] would observe. *)
Definition Slots := list bool.

Record Eval (A : Type) : Type := mkEval {
  outcome : ValuesError + A;
  calls : list Slots
}.
Arguments mkEval {A} _ _.
Arguments outcome {A} _.
Arguments calls {A} _.

Definition throw {A} (e : ValuesError) : Eval A := mkEval (inl e) [].

#[global] Instance Eval_ret : MRet Eval := fun A a => mkEval (inr a) [].

#[global] Instance Eval_bind : MBind Eval := fun A B k m =>
  match outcome m with
  | inl e => mkEval (inl e) (calls m)
  | inr a => mkEval (outcome (k a)) (calls m ++ calls (k a))
  end.

(** ** What the header takes from the rest of the library *)

(** [Matrix] is Eigen's dynamic matrix from [gtsam/base/Matrix.h]: its
    product [*], its sum (the [+=] of [add]),
    [Eigen::MatrixXd::Identity(rows, cols)] and the default-constructed
    matrix of a declaration [Matrix H;]. *)
Class MatrixOps : Type := {
  Matrix : Type;
  mmul : Matrix → Matrix → Matrix;
  madd : Matrix → Matrix → Matrix;
  Identity : nat → nat → Matrix;
  Matrix0 : Matrix
}.

(** The template arguments [T], [A], [A1], ...: a code [Ty] for each value
    type that can be stored in a [Values], the values [El T] of that type,
    and the member [t.dim()]. *)
Class ValueTypes : Type := {
  Ty : Type;
  Ty_eq_dec :: EqDecision Ty;
  El : Ty → Type;
  dim : ∀ {T : Ty}, El T → nat
}.

(** [typedef std::map<Key, Matrix> JacobianMap] *)
Abbreviation JacobianMap := (gmap Key Matrix) (only parsing).

(** A [Values] holds, under each key, a value of some type. *)
Abbreviation Values := (gmap Key (sigT El)) (only parsing).

(** ** A concrete instance: integer matrices and two value types *)

Module IntMatrix.

(** A matrix is the list of its rows. *)
Definition t : Type := list (list Z).

Definition add (A B : t) : t := zip_with (zip_with Z.add) A B.

Definition dot (r c : list Z) : Z := foldr Z.add 0%Z (zip_with Z.mul r c).

Definition column (j : nat) (B : t) : list Z := (λ row, nth j row 0%Z) <$> B.

Definition columns (B : t) : list (list Z) :=
  (λ j, column j B) <$> seq 0 (length (hd [] B)).

Definition mul (A B : t) : t := (λ r, dot r <$> columns B) <$> A.

Definition identity (rows cols : nat) : t :=
  (λ i, (λ j, if decide (i = j) then 1%Z else 0%Z) <$> seq 0 cols)
    <$> seq 0 rows.

Definition ops : MatrixOps :=
  {| Matrix := t; mmul := mul; madd := add;
     Identity := identity; Matrix0 := [] |}.

End IntMatrix.

(** ** A second instance: matrices of binary64 numbers

    The entries are the doubles of [Eigen::MatrixXd], with their rounded sum
    and product. *)

Module FloatMatrix.

Definition t : Type := list (list float).

Definition add (A B : t) : t := zip_with (zip_with PrimFloat.add) A B.

Definition dot (r c : list float) : float :=
  foldr PrimFloat.add 0%float (zip_with PrimFloat.mul r c).

Definition column (j : nat) (B : t) : list float :=
  (λ row, nth j row 0%float) <$> B.

Definition columns (B : t) : list (list float) :=
  (λ j, column j B) <$> seq 0 (length (hd [] B)).

Definition mul (A B : t) : t := (λ r, dot r <$> columns B) <$> A.

Definition identity (rows cols : nat) : t :=
  (λ i, (λ j, if decide (i = j) then 1%float else 0%float) <$> seq 0 cols)
    <$> seq 0 rows.

Definition ops : MatrixOps :=
  {| Matrix := t; mmul := mul; madd := add;
     Identity := identity; Matrix0 := [] |}.

(** The entry of a 1x1 matrix; [nan] for any other shape. *)
Definition entry (A : t) : float :=
  match A with
  | [[v]] => v
  | _ => nan
  end.

End FloatMatrix.

Module Geometry.

(** A scalar and a point of the plane, of dimensions 1 and 2. *)
Inductive ty : Type := LieScalar | Point2.

#[global] Instance ty_eq_dec : EqDecision ty.
Proof. solve_decision. Defined.

Definition el (T : ty) : Type :=
  match T with LieScalar => Z | Point2 => (Z * Z)%type end.

Definition el_dim (T : ty) (x : el T) : nat :=
  match T with LieScalar => 1 | Point2 => 2 end.

Definition types : ValueTypes :=
  {| Ty := ty; Ty_eq_dec := ty_eq_dec; El := el; dim := el_dim |}.

End Geometry.

Section Expression.

Context {M : MatrixOps} {V : ValueTypes}.

(** ** [Values] *)

(** Modelled from the spec: [Values::at<T>(Key)] of [gtsam/nonlinear/Values.h],
    which is not part of the header.  The spec describes it as a typed lookup
    "failing distinctly when the key is absent versus when the stored type
    does not match T". *)
Definition at_ (T : Ty) (values : Values) (j : Key) : Eval (El T) :=
  match values !! j with
  | None => throw (ValuesKeyDoesNotExist j)
  | Some (existT U u) =>
      match decide (U = T) with
      | left e => mret (eq_rect U El u T e)
      | right _ => throw (ValuesIncorrectType j)
      end
  end.

(** ** [class Augmented<T>] *)

Record Augmented (T : Ty) : Type := mkAugmented {
  value_ : El T;
  jacobians_ : JacobianMap
}.
Arguments mkAugmented {T} _ _.
Arguments value_ {T} _.
Arguments jacobians_ {T} _.

(** The body of the [BOOST_FOREACH] loop of [add] for one [term]. *)
Definition add_term (H : Matrix) (key : Key) (block : Matrix)
    (jacobians : JacobianMap) : JacobianMap :=
  match jacobians !! key with
  | Some m => <[key := madd m (mmul H block)]> jacobians
  | None => <[key := mmul H block]> jacobians
  end.

(** [void add(const Matrix& H, const JacobianMap& terms)], as a function of
    the member [jacobians_] it updates.  The keys of [terms] are distinct, so
    each entry of the result is touched by one term only. *)
Definition add (H : Matrix) (terms : JacobianMap) (jacobians : JacobianMap)
    : JacobianMap :=
  map_fold (add_term H) jacobians terms.

(** [Augmented(const T& t)] *)
Definition Augmented_constant {T} (t : El T) : Augmented T :=
  mkAugmented t ∅.

(** [Augmented(const T& t, Key key)] *)
Definition Augmented_leaf {T} (t : El T) (key : Key) : Augmented T :=
  let n := dim t in
  mkAugmented t (<[key := Identity n n]> ∅).

(** [Augmented(const T& t, const Matrix& H, const JacobianMap& jacobians)] *)
Definition Augmented_unary {T} (t : El T) (H : Matrix)
    (jacobians : JacobianMap) : Augmented T :=
  mkAugmented t (add H jacobians ∅).

(** The constructor with two pairs [H1, jacobians1], [H2, jacobians2]. *)
Definition Augmented_binary {T} (t : El T)
    (H1 : Matrix) (jacobians1 : JacobianMap)
    (H2 : Matrix) (jacobians2 : JacobianMap) : Augmented T :=
  mkAugmented t (add H2 jacobians2 (add H1 jacobians1 ∅)).

(** The constructor with three pairs; it adds the second pair first, then
    the third, then the first. *)
Definition Augmented_ternary {T} (t : El T)
    (H1 : Matrix) (jacobians1 : JacobianMap)
    (H2 : Matrix) (jacobians2 : JacobianMap)
    (H3 : Matrix) (jacobians3 : JacobianMap) : Augmented T :=
  mkAugmented t
    (add H1 jacobians1 (add H3 jacobians3 (add H2 jacobians2 ∅))).

(** [const T& value() const] *)
Definition value_of {T} (a : Augmented T) : El T := value_ a.

(** [const JacobianMap& jacobians() const] *)
Definition jacobians {T} (a : Augmented T) : JacobianMap := jacobians_ a.

(** [bool constant() const { return jacobians_.empty(); }] *)
Definition constant {T} (a : Augmented T) : bool :=
  bool_decide (jacobians_ a = ∅).

(** ** Wrapped functions

    A [boost::function] taking its arguments and one
    [boost::optional<Matrix&>] per argument.  A slot is [true] when it refers
    to a matrix and [false] when it is [boost::none]; next to its result the
    function returns what it writes through each slot. *)
Definition UnaryFunction (T A : Ty) : Type :=
  El A → bool → El T * Matrix.

Definition BinaryFunction (T A1 A2 : Ty) : Type :=
  El A1 → El A2 → bool → bool → El T * Matrix * Matrix.

Definition TernaryFunction (T A1 A2 A3 : Ty) : Type :=
  El A1 → El A2 → El A3 → bool → bool → bool →
  El T * Matrix * Matrix * Matrix.

(** [c ? none : boost::optional<Matrix&>(H)] *)
Definition optional (c : bool) : bool := if c then false else true.

(** The local [Matrix H;] after the call: what the function wrote when the
    slot referred to it, the default-constructed matrix otherwise. *)
Definition local (slot : bool) (written : Matrix) : Matrix :=
  if slot then written else Matrix0.

Definition call1 {T A} (function_ : UnaryFunction T A)
    (a : El A) (s : bool) : Eval (El T * Matrix) :=
  let '(t, h) := function_ a s in
  mkEval (inr (t, local s h)) [[s]].

Definition call2 {T A1 A2} (function_ : BinaryFunction T A1 A2)
    (a1 : El A1) (a2 : El A2) (s1 s2 : bool)
    : Eval (El T * Matrix * Matrix) :=
  let '(t, h1, h2) := function_ a1 a2 s1 s2 in
  mkEval (inr (t, local s1 h1, local s2 h2)) [[s1; s2]].

Definition call3 {T A1 A2 A3} (function_ : TernaryFunction T A1 A2 A3)
    (a1 : El A1) (a2 : El A2) (a3 : El A3) (s1 s2 s3 : bool)
    : Eval (El T * Matrix * Matrix * Matrix) :=
  let '(t, h1, h2, h3) := function_ a1 a2 a3 s1 s2 s3 in
  mkEval (inr (t, local s1 h1, local s2 h2, local s3 h3)) [[s1; s2; s3]].

(** ** The expression nodes

    One constructor per subclass of [ExpressionNode<T>], with the members of
    the subclass as arguments.  Nodes are immutable and own their children
    through shared pointers, so a node shared by two parents is the same
    subterm twice. *)
Inductive ExpressionNode : Ty → Type :=
| ConstantExpression {T} (constant_ : El T) : ExpressionNode T
| LeafExpression (T : Ty) (key_ : Key) : ExpressionNode T
| UnaryExpression {T A} (function_ : UnaryFunction T A)
    (expressionA_ : ExpressionNode A) : ExpressionNode T
| BinaryExpression {T A1 A2} (function_ : BinaryFunction T A1 A2)
    (expressionA1_ : ExpressionNode A1) (expressionA2_ : ExpressionNode A2)
    : ExpressionNode T
| TernaryExpression {T A1 A2 A3} (function_ : TernaryFunction T A1 A2 A3)
    (expressionA1_ : ExpressionNode A1) (expressionA2_ : ExpressionNode A2)
    (expressionA3_ : ExpressionNode A3) : ExpressionNode T.

(** [virtual std::set<Key> keys() const]; [keys1.insert(keys2.begin(),
    keys2.end())] is the union of the two sets. *)
Fixpoint keys {T} (n : ExpressionNode T) : gset Key :=
  match n with
  | ConstantExpression _ => ∅
  | LeafExpression _ key_ => {[ key_ ]}
  | UnaryExpression _ expressionA_ => keys expressionA_
  | BinaryExpression _ expressionA1_ expressionA2_ =>
      let keys1 := keys expressionA1_ in
      let keys2 := keys expressionA2_ in
      keys1 ∪ keys2
  | TernaryExpression _ expressionA1_ expressionA2_ expressionA3_ =>
      let keys1 := keys expressionA1_ in
      let keys2 := keys expressionA2_ in
      let keys3 := keys expressionA3_ in
      keys1 ∪ (keys2 ∪ keys3)
  end.

(** [virtual T value(const Values& values) const].  The arguments of
    [function_] are evaluated from left to right here; C++ leaves their order
    open, which only matters for which of two failing lookups is reported. *)
Fixpoint value {T} (n : ExpressionNode T) (values : Values) : Eval (El T) :=
  match n with
  | ConstantExpression constant_ => mret constant_
  | LeafExpression T key_ => at_ T values key_
  | UnaryExpression function_ expressionA_ =>
      a ← value expressionA_ values;
      r ← call1 function_ a false;
      mret r.1
  | BinaryExpression function_ expressionA1_ expressionA2_ =>
      a1 ← value expressionA1_ values;
      a2 ← value expressionA2_ values;
      r ← call2 function_ a1 a2 false false;
      mret r.1.1
  | TernaryExpression function_ expressionA1_ expressionA2_ expressionA3_ =>
      a1 ← value expressionA1_ values;
      a2 ← value expressionA2_ values;
      a3 ← value expressionA3_ values;
      r ← call3 function_ a1 a2 a3 false false false;
      mret r.1.1.1
  end.

(** [virtual Augmented<T> augmented(const Values& values) const].  The
    ternary case follows the source: [H3] is declared and offered to
    [function_], and the result is built by the constructor with two pairs.
    The source declares [argument3] as [Augmented<A2>], which compiles when
    [A3] is [A2]; only its [value()] and [constant()] are read. *)
Fixpoint augmented {T} (n : ExpressionNode T) (values : Values)
    : Eval (Augmented T) :=
  match n with
  | ConstantExpression constant_ =>
      t ← value (ConstantExpression constant_) values;
      mret (Augmented_constant t)
  | LeafExpression T key_ =>
      t ← value (LeafExpression T key_) values;
      mret (Augmented_leaf t key_)
  | UnaryExpression function_ expressionA_ =>
      argument ← augmented expressionA_ values;
      '(t, H) ← call1 function_ (value_of argument)
                  (optional (constant argument));
      mret (Augmented_unary t H (jacobians argument))
  | BinaryExpression function_ expressionA1_ expressionA2_ =>
      argument1 ← augmented expressionA1_ values;
      argument2 ← augmented expressionA2_ values;
      '(t, H1, H2) ← call2 function_
                       (value_of argument1) (value_of argument2)
                       (optional (constant argument1))
                       (optional (constant argument2));
      mret (Augmented_binary t H1 (jacobians argument1)
                               H2 (jacobians argument2))
  | TernaryExpression function_ expressionA1_ expressionA2_ expressionA3_ =>
      argument1 ← augmented expressionA1_ values;
      argument2 ← augmented expressionA2_ values;
      argument3 ← augmented expressionA3_ values;
      '(t, H1, H2, H3) ← call3 function_
                           (value_of argument1) (value_of argument2)
                           (value_of argument3)
                           (optional (constant argument1))
                           (optional (constant argument2))
                           (optional (constant argument3));
      mret (Augmented_binary t H1 (jacobians argument1)
                               H2 (jacobians argument2))
  end.

(** ** Notions the properties are stated with *)

(** The keys of the [LeafExpression]s of a subtree, one for each occurrence
    of a leaf, from left to right. *)
Fixpoint leaf_keys {T} (n : ExpressionNode T) : list Key :=
  match n with
  | ConstantExpression _ => []
  | LeafExpression _ key_ => [key_]
  | UnaryExpression _ expressionA_ => leaf_keys expressionA_
  | BinaryExpression _ expressionA1_ expressionA2_ =>
      leaf_keys expressionA1_ ++ leaf_keys expressionA2_
  | TernaryExpression _ expressionA1_ expressionA2_ expressionA3_ =>
      leaf_keys expressionA1_ ++ leaf_keys expressionA2_
        ++ leaf_keys expressionA3_
  end.

(** [values] satisfies the leaf dependencies of [n]: the key of every leaf
    holds a value of the type of that leaf. *)
Fixpoint binds (values : Values) {T} (n : ExpressionNode T) : Prop :=
  match n with
  | ConstantExpression _ => True
  | LeafExpression T key_ => ∃ t : El T, values !! key_ = Some (existT T t)
  | UnaryExpression _ expressionA_ => binds values expressionA_
  | BinaryExpression _ expressionA1_ expressionA2_ =>
      binds values expressionA1_ ∧ binds values expressionA2_
  | TernaryExpression _ expressionA1_ expressionA2_ expressionA3_ =>
      binds values expressionA1_ ∧ binds values expressionA2_
      ∧ binds values expressionA3_
  end.

(** Every wrapped function of [n] returns the same value whether or not its
    Jacobian slots are engaged. *)
Fixpoint value_ignores_slots {T} (n : ExpressionNode T) : Prop :=
  match n with
  | ConstantExpression _ => True
  | LeafExpression _ _ => True
  | UnaryExpression function_ expressionA_ =>
      (∀ a s, (function_ a s).1 = (function_ a false).1)
      ∧ value_ignores_slots expressionA_
  | BinaryExpression function_ expressionA1_ expressionA2_ =>
      (∀ a1 a2 s1 s2,
         (function_ a1 a2 s1 s2).1.1 = (function_ a1 a2 false false).1.1)
      ∧ value_ignores_slots expressionA1_
      ∧ value_ignores_slots expressionA2_
  | TernaryExpression function_ expressionA1_ expressionA2_ expressionA3_ =>
      (∀ a1 a2 a3 s1 s2 s3,
         (function_ a1 a2 a3 s1 s2 s3).1.1.1
         = (function_ a1 a2 a3 false false false).1.1.1)
      ∧ value_ignores_slots expressionA1_
      ∧ value_ignores_slots expressionA2_
      ∧ value_ignores_slots expressionA3_
  end.

(** The accumulation rule applied once per pair of a local Jacobian and a
    child mapping, in the order of the list, starting from no entry. *)
Definition fold_pairs (pairs : list (Matrix * JacobianMap)) : JacobianMap :=
  foldl (λ jacobians p, add p.1 p.2 jacobians) ∅ pairs.

(** The chain rule at one key: the sum, over the pairs whose mapping holds
    the key, of the local Jacobian times the block under that key; [None]
    when no pair holds the key. *)
Definition path_sum (k : Key) (pairs : list (Matrix * JacobianMap))
    : option Matrix :=
  foldl (λ acc p,
           match p.2 !! k with
           | None => acc
           | Some block =>
               Some (from_option (λ m, madd m (mmul p.1 block))
                                 (mmul p.1 block) acc)
           end) None pairs.

End Expression.

Arguments mkAugmented {M V T} _ _.
Arguments value_ {M V T} _.
Arguments jacobians_ {M V T} _.

(** ** Concrete expressions over the integer instance *)

Module Examples.

Import Geometry.

#[local] Existing Instance IntMatrix.ops.
#[local] Existing Instance Geometry.types.

(** The first coordinate of a point, with its 1x2 Jacobian. *)
Definition first : UnaryFunction LieScalar Point2 :=
  λ p _, (p.1, [[1; 0]])%Z.

(** The product of two scalars. *)
Definition times : BinaryFunction LieScalar LieScalar LieScalar :=
  λ a1 a2 _ _, (a1 * a2, [[a2]], [[a1]])%Z.

(** [measured - (s * d + b)] for [measured = 10], on scalars. *)
Definition residual
    : TernaryFunction LieScalar LieScalar LieScalar LieScalar :=
  λ s d b _ _ _, (10 - (s * d + b), [[- d]], [[- s]], [[-1]])%Z.

(** Keys 1, 3 and 4 hold scalars, key 2 holds a point. *)
Definition x : gmap Key (sigT el) :=
  <[1%N := existT LieScalar 3%Z]>
    (<[2%N := existT Point2 (4, 5)%Z]>
       (<[3%N := existT LieScalar 2%Z]>
          (<[4%N := existT LieScalar 4%Z]> ∅))).

Definition s : ExpressionNode LieScalar := LeafExpression LieScalar 1.
Definition p : ExpressionNode Point2 := LeafExpression Point2 2.
Definition d : ExpressionNode LieScalar := LeafExpression LieScalar 3.
Definition b : ExpressionNode LieScalar := LeafExpression LieScalar 4.

(** A leaf whose key is not in [x], and a scalar leaf on the key of the
    point. *)
Definition absent : ExpressionNode LieScalar := LeafExpression LieScalar 9.
Definition mistyped : ExpressionNode LieScalar :=
  LeafExpression LieScalar 2.

(** [s * s]: both arguments are the same leaf. *)
Definition square : ExpressionNode LieScalar := BinaryExpression times s s.

(** [first(p) * s] *)
Definition mixed : ExpressionNode LieScalar :=
  BinaryExpression times (UnaryExpression first p) s.

(** The residual of three leaves. *)
Definition error : ExpressionNode LieScalar :=
  TernaryExpression residual s d b.

(** The residual with a fixed scale. *)
Definition error_fixed_scale : ExpressionNode LieScalar :=
  TernaryExpression residual (ConstantExpression (3%Z : el LieScalar)) d b.

(** The residual of three constants. *)
Definition error_constant : ExpressionNode LieScalar :=
  TernaryExpression residual
    (ConstantExpression (3%Z : el LieScalar))
    (ConstantExpression (2%Z : el LieScalar))
    (ConstantExpression (4%Z : el LieScalar)).

(** What [augmented] returns for the leaves and for the residual. *)
Definition s_augmented : Augmented LieScalar :=
  Augmented_leaf (3%Z : el LieScalar) 1.

Definition d_augmented : Augmented LieScalar :=
  Augmented_leaf (2%Z : el LieScalar) 3.

Definition b_augmented : Augmented LieScalar :=
  Augmented_leaf (4%Z : el LieScalar) 4.

Definition error_fixed_scale_augmented : Augmented LieScalar :=
  mkAugmented (0%Z : el LieScalar) {[ 3%N := [[-3]]%Z ]}.

Definition error_augmented : Augmented LieScalar :=
  mkAugmented (0%Z : el LieScalar)
    (<[1%N := [[-2]]%Z]> {[ 3%N := [[-3]]%Z ]}).

End Examples.

(** ** Further notions on expressions *)

Section Measures.

Context {M : MatrixOps} {V : ValueTypes}.

(** The number of unary, binary and ternary nodes of an expression, a node
    used twice counting twice. *)
Fixpoint function_nodes {T} (n : ExpressionNode T) : nat :=
  match n with
  | ConstantExpression _ => 0
  | LeafExpression _ _ => 0
  | UnaryExpression _ expressionA_ => S (function_nodes expressionA_)
  | BinaryExpression _ expressionA1_ expressionA2_ =>
      S (function_nodes expressionA1_ + function_nodes expressionA2_)
  | TernaryExpression _ expressionA1_ expressionA2_ expressionA3_ =>
      S (function_nodes expressionA1_ + function_nodes expressionA2_
         + function_nodes expressionA3_)
  end.

(** No node of the expression is a [TernaryExpression]. *)
Fixpoint ternary_free {T} (n : ExpressionNode T) : bool :=
  match n with
  | ConstantExpression _ => true
  | LeafExpression _ _ => true
  | UnaryExpression _ expressionA_ => ternary_free expressionA_
  | BinaryExpression _ expressionA1_ expressionA2_ =>
      ternary_free expressionA1_ && ternary_free expressionA2_
  | TernaryExpression _ _ _ _ => false
  end.

(** The lookup of every leaf of the expression returns. *)
Fixpoint leaves_evaluate (values : Values) {T} (n : ExpressionNode T)
    : Prop :=
  match n with
  | ConstantExpression _ => True
  | LeafExpression T key_ =>
      ∃ t, outcome (value (LeafExpression T key_) values) = inr t
  | UnaryExpression _ expressionA_ => leaves_evaluate values expressionA_
  | BinaryExpression _ expressionA1_ expressionA2_ =>
      leaves_evaluate values expressionA1_
      ∧ leaves_evaluate values expressionA2_
  | TernaryExpression _ expressionA1_ expressionA2_ expressionA3_ =>
      leaves_evaluate values expressionA1_
      ∧ leaves_evaluate values expressionA2_
      ∧ leaves_evaluate values expressionA3_
  end.

(** The pairs of a list whose mapping holds the key [k]. *)
Definition holders (k : Key) (pairs : list (Matrix * JacobianMap))
    : list (Matrix * JacobianMap) :=
  filter (λ p, is_Some (p.2 !! k)) pairs.

(** The sum of two blocks met under the same key. *)
Definition sum_blocks (m1 m2 : Matrix) : option Matrix := Some (madd m1 m2).

End Measures.

Module MoreExamples.

Import Geometry Examples.

#[local] Existing Instance IntMatrix.ops.
#[local] Existing Instance Geometry.types.

(** [first(p)] and what [augmented] returns for it and for [p]. *)
Definition first_p : ExpressionNode LieScalar := UnaryExpression first p.

Definition p_augmented : Augmented Point2 :=
  Augmented_leaf ((4, 5)%Z : el Point2) 2.

Definition first_p_augmented : Augmented LieScalar :=
  mkAugmented (4%Z : el LieScalar) {[ 2%N := [[1; 0]]%Z ]}.

(** [x] with one more variable, under a key [error] does not use. *)
Definition x_more : gmap Key (sigT el) :=
  <[9%N := existT Point2 (0, 0)%Z]> x.

(** Twice a scalar, and twice the first coordinate of [p]. *)
Definition twice : UnaryFunction LieScalar LieScalar :=
  λ a _, (2 * a, [[2]])%Z.

Definition twice_first_p : ExpressionNode LieScalar :=
  UnaryExpression twice first_p.

(** What [augmented] returns for [mixed]. *)
Definition mixed_augmented : Augmented LieScalar :=
  mkAugmented (12%Z : el LieScalar)
    (<[1%N := [[4]]%Z]> {[ 2%N := [[3; 0]]%Z ]}).

(** Other values for the variables of [error], and what [augmented] returns
    for [error] on them. *)
Definition x_other : gmap Key (sigT el) :=
  <[1%N := existT LieScalar 5%Z]>
    (<[3%N := existT LieScalar 7%Z]>
       (<[4%N := existT LieScalar 1%Z]> ∅)).

Definition error_other_augmented : Augmented LieScalar :=
  mkAugmented ((-26)%Z : el LieScalar)
    (<[1%N := [[-7]]%Z]> {[ 3%N := [[-5]]%Z ]}).

(** [absent * s]: the first child throws. *)
Definition absent_times_s : ExpressionNode LieScalar :=
  BinaryExpression times absent s.

(** The entries of the mapping of [error], by increasing key. *)
Definition error_terms : list (Key * IntMatrix.t) :=
  [(1%N, [[-2]]%Z); (3%N, [[-3]]%Z)].

End MoreExamples.

(** Three pairs over the matrices of doubles that all hold key 1, with
    blocks [2^53], [1] and [1] and the 1x1 identity as local Jacobian. *)

Module DoubleExamples.

Import Geometry.

#[local] Existing Instance FloatMatrix.ops.
#[local] Existing Instance Geometry.types.

Definition one : FloatMatrix.t := [[1%float]].

Definition big : FloatMatrix.t := [[9007199254740992%float]].

Definition jac_one : gmap Key FloatMatrix.t := {[ 1%N := one ]}.

Definition jac_big : gmap Key FloatMatrix.t := {[ 1%N := big ]}.

(** What the constructor with three pairs builds from them. *)
Definition three_paths : Augmented LieScalar :=
  Augmented_ternary (0%Z : el LieScalar)
    one jac_big one jac_one one jac_one.

(** The same pairs in the order first, second, third. *)
Definition three_pairs : list (FloatMatrix.t * gmap Key FloatMatrix.t) :=
  [(one, jac_big); (one, jac_one); (one, jac_one)].

End DoubleExamples.

Section Theory.

Context {M : MatrixOps} {V : ValueTypes}.

Implicit Types (H : Matrix) (k key : Key).
Implicit Types (terms jac : gmap Key Matrix).

(** *** The monad *)

Lemma bind_inr {A B} (m : Eval A) (f : A → Eval B) a :
  outcome m = inr a →
  outcome (m ≫= f) = outcome (f a) ∧ calls (m ≫= f) = calls m ++ calls (f a).
Proof. unfold mbind, Eval_bind. by intros ->. Qed.

Lemma bind_inr_inv {A B} (m : Eval A) (f : A → Eval B) b :
  outcome (m ≫= f) = inr b →
  ∃ a, outcome m = inr a ∧ outcome (f a) = inr b.
Proof.
  unfold mbind, Eval_bind. destruct (outcome m) as [e|a]; simpl; [done|].
  intros Hb. by exists a.
Qed.

Lemma Eval_eq {A} (m : Eval A) o c :
  outcome m = o → calls m = c → m = mkEval o c.
Proof. destruct m. simpl. by intros -> ->. Qed.

(** Runs the first computation of a bind whose result [Hm] gives. *)
Ltac bind_step Hm :=
  lazymatch type of Hm with
  | outcome ?m = inr ?a =>
      match goal with
      | |- context [ mbind ?f m ] =>
          let Ho := fresh in
          let Hc := fresh in
          destruct (bind_inr m f a Hm) as [Ho Hc];
          rewrite ?Ho, ?Hc; clear Ho Hc
      end
  end.

(** *** [add] *)

Lemma lookup_add_term H key block jac k :
  add_term H key block jac !! k =
    if decide (key = k)
    then Some (from_option (λ m, madd m (mmul H block)) (mmul H block)
                           (jac !! key))
    else jac !! k.
Proof.
  unfold add_term.
  destruct (jac !! key) as [m|] eqn:E; rewrite lookup_insert;
    by case_decide.
Qed.

(** The entry of [add H terms jac] under each key. *)
Lemma lookup_add H terms jac k :
  add H terms jac !! k =
    match terms !! k with
    | None => jac !! k
    | Some block =>
        Some (from_option (λ m, madd m (mmul H block)) (mmul H block)
                          (jac !! k))
    end.
Proof.
  unfold add. revert k.
  apply (map_fold_weak_ind
    (λ r terms, ∀ k, r !! k = match terms !! k with
       | None => jac !! k
       | Some block =>
           Some (from_option (λ m, madd m (mmul H block)) (mmul H block)
                             (jac !! k))
       end)).
  - intros k. by rewrite lookup_empty.
  - intros i x m r Hi IH k. rewrite lookup_add_term, lookup_insert.
    case_decide as Hik; [|apply IH]. subst i.
    by rewrite IH, Hi.
Qed.

Lemma add_empty H jac : add H ∅ jac = jac.
Proof. apply map_eq. intros k. by rewrite lookup_add, lookup_empty. Qed.

Lemma dom_add H terms jac : dom (add H terms jac) = dom jac ∪ dom terms.
Proof.
  apply set_eq. intros k.
  rewrite elem_of_union, !elem_of_dom, lookup_add.
  destruct (terms !! k) as [block|], (jac !! k) as [m|]; simpl;
    split; eauto; intros [[? ?]|[? ?]]; eauto; discriminate.
Qed.

(** [std::map] hands its entries to [BOOST_FOREACH] in increasing order of
    the keys.  Visiting the terms in that order, or in any other, gives the
    mapping [add] computes. *)
Lemma add_any_order H terms jac (l : list (Key * Matrix)) :
  l ≡ₚ map_to_list terms →
  foldl (λ j term, add_term H term.1 term.2 j) jac l = add H terms jac.
Proof.
  intros Hl.
  assert (NoDup l.*1) as Hnd.
  { rewrite Hl. apply NoDup_fst_map_to_list. }
  assert (terms = list_to_map l) as ->.
  { by apply list_to_map_flip. }
  clear Hl. revert jac.
  induction l as [|[key block] l IH]; intros jac; simpl.
  - by rewrite add_empty.
  - apply NoDup_cons in Hnd as [Hkey Hnd].
    rewrite IH by done. apply map_eq. intros k.
    rewrite !lookup_add, lookup_add_term, lookup_insert.
    case_decide as Hk.
    + subst k. by rewrite (not_elem_of_list_to_map_1 _ _ Hkey).
    + done.
Qed.

(** *** Leaves *)

Lemma at_bound (T : Ty) (values : Values) k (t : El T) :
  values !! k = Some (existT T t) → at_ T values k = mret t.
Proof.
  intros Hk. unfold at_. rewrite Hk.
  destruct (decide (T = T)) as [e|]; [|done].
  by rewrite (proof_irrel e eq_refl).
Qed.

Lemma at_absent (T : Ty) (values : Values) k :
  values !! k = None → at_ T values k = throw (ValuesKeyDoesNotExist k).
Proof. intros Hk. unfold at_. by rewrite Hk. Qed.

Lemma at_mismatch (T U : Ty) (values : Values) k (u : El U) :
  values !! k = Some (existT U u) → U ≠ T →
  at_ T values k = throw (ValuesIncorrectType k).
Proof.
  intros Hk HU. unfold at_. rewrite Hk.
  by destruct (decide (U = T)).
Qed.

(** C5: a leaf with key [k] and type [T] evaluated, by [value] or by
    [augmented], on a [Values] without [k] throws [ValuesKeyDoesNotExist];
    on a [Values] where [k] holds a value of another type it throws
    [ValuesIncorrectType]; in both cases there is no result.  Where [k]
    holds [t] of type [T], [value] returns [t] and [augmented] returns an
    [Augmented] whose value is [t]. *)
Theorem LeafExpression_lookup (T : Ty) (k : Key) (values : Values) :
  (values !! k = None →
     outcome (value (LeafExpression T k) values)
       = inl (ValuesKeyDoesNotExist k)
     ∧ outcome (augmented (LeafExpression T k) values)
       = inl (ValuesKeyDoesNotExist k))
  ∧ (∀ (U : Ty) (u : El U), values !! k = Some (existT U u) → U ≠ T →
       outcome (value (LeafExpression T k) values)
         = inl (ValuesIncorrectType k)
       ∧ outcome (augmented (LeafExpression T k) values)
         = inl (ValuesIncorrectType k))
  ∧ (∀ t : El T, values !! k = Some (existT T t) →
       outcome (value (LeafExpression T k) values) = inr t
       ∧ ∃ a, outcome (augmented (LeafExpression T k) values) = inr a
              ∧ value_of a = t).
Proof.
  split; [|split].
  - intros Hk. simpl. by rewrite (at_absent _ _ _ Hk).
  - intros U u Hk HU. simpl. by rewrite (at_mismatch _ _ _ _ _ Hk HU).
  - intros t Hk. simpl. rewrite (at_bound _ _ _ _ Hk). split; [done|].
    by exists (Augmented_leaf t k).
Qed.

(** C7: the [Augmented] built for a leaf with key [k] holding [t] has the
    single Jacobian entry [k -> Identity(n, n)] with [n = t.dim()], and its
    value is [t]. *)
Theorem Augmented_leaf_identity {T : Ty} (t : El T) (k : Key) :
  jacobians (Augmented_leaf t k) = {[ k := Identity (dim t) (dim t) ]}
  ∧ map_to_list (jacobians (Augmented_leaf t k))
      = [(k, Identity (dim t) (dim t))]
  ∧ value_of (Augmented_leaf t k) = t
  ∧ ∀ values : Values, values !! k = Some (existT T t) →
      outcome (augmented (LeafExpression T k) values)
        = inr (Augmented_leaf t k).
Proof.
  split; [done|]. split; [|split; [done|]].
  - unfold jacobians, Augmented_leaf. simpl.
    rewrite insert_empty. apply map_to_list_singleton.
  - intros values Hk. simpl. by rewrite (at_bound _ _ _ _ Hk).
Qed.

(** *** Keys *)

(** C6: [keys()] is the set of the keys of the leaves of the subtree: empty
    for a constant, the key of a leaf, the keys of the child of a unary node,
    the union of the keys of the children of a binary or ternary node; a key
    met several times, as for a subexpression used twice, is in the set
    once. *)
Theorem keys_leaf_keys :
  (∀ (T : Ty) (n : ExpressionNode T), keys n = list_to_set (leaf_keys n))
  ∧ (∀ (T : Ty) (n : ExpressionNode T) k, k ∈ keys n ↔ k ∈ leaf_keys n)
  ∧ (∀ (T : Ty) (c : El T), keys (ConstantExpression c) = ∅)
  ∧ (∀ (T : Ty) k, keys (LeafExpression T k) = {[ k ]})
  ∧ (∀ (T A : Ty) (f : UnaryFunction T A) e,
       keys (UnaryExpression f e) = keys e)
  ∧ (∀ (T A1 A2 : Ty) (f : BinaryFunction T A1 A2) e1 e2,
       keys (BinaryExpression f e1 e2) = keys e1 ∪ keys e2)
  ∧ (∀ (T A1 A2 A3 : Ty) (f : TernaryFunction T A1 A2 A3) e1 e2 e3,
       keys (TernaryExpression f e1 e2 e3) = keys e1 ∪ keys e2 ∪ keys e3)
  ∧ (∀ (T A : Ty) (f : BinaryFunction T A A) e,
       keys (BinaryExpression f e e) = keys e).
Proof.
  assert (∀ (T : Ty) (n : ExpressionNode T),
            keys n = list_to_set (leaf_keys n)) as Hkeys.
  { intros T n. induction n; simpl.
    - done.
    - set_solver.
    - done.
    - rewrite list_to_set_app_L. by f_equal.
    - rewrite !list_to_set_app_L. by repeat f_equal. }
  split; [done|]. split.
  { intros T n k. rewrite Hkeys. apply elem_of_list_to_set. }
  repeat split; intros; simpl; set_solver.
Qed.

(** *** One step of [augmented] *)

(** What [augmented] returns at a function node, and the calls it makes,
    from what it returns at the children. *)
Lemma augmented_unary {T A : Ty} (f : UnaryFunction T A) e
    (values : Values) argument :
  outcome (augmented e values) = inr argument →
  let s := optional (constant argument) in
  let r := f (value_of argument) s in
  outcome (augmented (UnaryExpression f e) values)
    = inr (Augmented_unary r.1 (local s r.2) (jacobians argument))
  ∧ calls (augmented (UnaryExpression f e) values)
    = calls (augmented e values) ++ [[s]].
Proof.
  intros He s r. cbn [augmented]. bind_step He.
  fold s. unfold call1. fold r. by destruct r as [t h].
Qed.

Lemma augmented_binary {T A1 A2 : Ty} (f : BinaryFunction T A1 A2) e1 e2
    (values : Values) argument1 argument2 :
  outcome (augmented e1 values) = inr argument1 →
  outcome (augmented e2 values) = inr argument2 →
  let s1 := optional (constant argument1) in
  let s2 := optional (constant argument2) in
  let r := f (value_of argument1) (value_of argument2) s1 s2 in
  outcome (augmented (BinaryExpression f e1 e2) values)
    = inr (Augmented_binary r.1.1
             (local s1 r.1.2) (jacobians argument1)
             (local s2 r.2) (jacobians argument2))
  ∧ calls (augmented (BinaryExpression f e1 e2) values)
    = calls (augmented e1 values) ++ calls (augmented e2 values)
        ++ [[s1; s2]].
Proof.
  intros He1 He2 s1 s2 r. cbn [augmented].
  bind_step He1. bind_step He2. rewrite <- ?(assoc (++)).
  fold s1 s2. unfold call2. fold r. by destruct r as [[t h1] h2].
Qed.

Lemma augmented_ternary {T A1 A2 A3 : Ty} (f : TernaryFunction T A1 A2 A3)
    e1 e2 e3 (values : Values) argument1 argument2 argument3 :
  outcome (augmented e1 values) = inr argument1 →
  outcome (augmented e2 values) = inr argument2 →
  outcome (augmented e3 values) = inr argument3 →
  let s1 := optional (constant argument1) in
  let s2 := optional (constant argument2) in
  let s3 := optional (constant argument3) in
  let r := f (value_of argument1) (value_of argument2) (value_of argument3)
             s1 s2 s3 in
  outcome (augmented (TernaryExpression f e1 e2 e3) values)
    = inr (Augmented_binary r.1.1.1
             (local s1 r.1.1.2) (jacobians argument1)
             (local s2 r.1.2) (jacobians argument2))
  ∧ calls (augmented (TernaryExpression f e1 e2 e3) values)
    = calls (augmented e1 values) ++ calls (augmented e2 values)
        ++ calls (augmented e3 values) ++ [[s1; s2; s3]].
Proof.
  intros He1 He2 He3 s1 s2 s3 r. cbn [augmented].
  bind_step He1. bind_step He2. bind_step He3. rewrite <- ?(assoc (++)).
  fold s1 s2 s3. unfold call3. fold r. by destruct r as [[[t h1] h2] h3].
Qed.

Lemma constant_true {T : Ty} (a : Augmented T) :
  constant a = true ↔ jacobians a = ∅.
Proof. unfold constant, jacobians. apply bool_decide_eq_true. Qed.

Lemma Augmented_unary_constant {T : Ty} (t : El T) H :
  Augmented_unary t H ∅ = Augmented_constant t.
Proof. unfold Augmented_unary. by rewrite add_empty. Qed.

Lemma Augmented_binary_constant_l {T : Ty} (t : El T) H1 H2 jac :
  Augmented_binary t H1 ∅ H2 jac = Augmented_unary t H2 jac.
Proof. unfold Augmented_binary. by rewrite add_empty. Qed.

Lemma Augmented_binary_constant_r {T : Ty} (t : El T) H1 H2 jac :
  Augmented_binary t H1 jac H2 ∅ = Augmented_unary t H1 jac.
Proof. unfold Augmented_binary. by rewrite add_empty. Qed.

(** *** One step of [value] *)

Lemma value_unary {T A : Ty} (f : UnaryFunction T A) e (values : Values) a :
  outcome (value e values) = inr a →
  outcome (value (UnaryExpression f e) values) = inr (f a false).1.
Proof.
  intros He. cbn [value]. bind_step He.
  unfold call1. by destruct (f a false) as [t h].
Qed.

Lemma value_binary {T A1 A2 : Ty} (f : BinaryFunction T A1 A2) e1 e2
    (values : Values) a1 a2 :
  outcome (value e1 values) = inr a1 →
  outcome (value e2 values) = inr a2 →
  outcome (value (BinaryExpression f e1 e2) values)
    = inr (f a1 a2 false false).1.1.
Proof.
  intros He1 He2. cbn [value]. bind_step He1. bind_step He2.
  unfold call2. by destruct (f a1 a2 false false) as [[t h1] h2].
Qed.

Lemma value_ternary {T A1 A2 A3 : Ty} (f : TernaryFunction T A1 A2 A3)
    e1 e2 e3 (values : Values) a1 a2 a3 :
  outcome (value e1 values) = inr a1 →
  outcome (value e2 values) = inr a2 →
  outcome (value e3 values) = inr a3 →
  outcome (value (TernaryExpression f e1 e2 e3) values)
    = inr (f a1 a2 a3 false false false).1.1.1.
Proof.
  intros He1 He2 He3. cbn [value]. bind_step He1. bind_step He2.
  bind_step He3. unfold call3.
  by destruct (f a1 a2 a3 false false false) as [[[t h1] h2] h3].
Qed.

(** *** Value and derivatives *)

(** C2: on a [Values] that binds every leaf of a node, and when every
    wrapped function returns the same value whether or not its Jacobian
    slots are engaged, [augmented] returns and [value] returns the value of
    what [augmented] returns. *)
Theorem value_augmented_value {T : Ty} (n : ExpressionNode T)
    (values : Values) :
  binds values n → value_ignores_slots n →
  ∃ a, outcome (augmented n values) = inr a
       ∧ outcome (value n values) = inr (value_of a).
Proof.
  induction n as [T c|T k|T A f e IH|T A1 A2 f e1 IH1 e2 IH2
                 |T A1 A2 A3 f e1 IH1 e2 IH2 e3 IH3];
    cbn [binds value_ignores_slots].
  - intros _ _. by exists (Augmented_constant c).
  - intros [t Hk] _. simpl. rewrite (at_bound _ _ _ _ Hk).
    by exists (Augmented_leaf t k).
  - intros Hb [Hf Hi]. destruct (IH Hb Hi) as (arg & Ha & Hv).
    destruct (augmented_unary f e values arg Ha) as [Hr _].
    eexists. split; [exact Hr|].
    rewrite (value_unary f e values _ Hv). simpl. f_equal. symmetry.
    apply Hf.
  - intros [Hb1 Hb2] (Hf & Hi1 & Hi2).
    destruct (IH1 Hb1 Hi1) as (arg1 & Ha1 & Hv1).
    destruct (IH2 Hb2 Hi2) as (arg2 & Ha2 & Hv2).
    destruct (augmented_binary f e1 e2 values arg1 arg2 Ha1 Ha2) as [Hr _].
    eexists. split; [exact Hr|].
    rewrite (value_binary f e1 e2 values _ _ Hv1 Hv2). simpl. f_equal.
    symmetry. apply Hf.
  - intros (Hb1 & Hb2 & Hb3) (Hf & Hi1 & Hi2 & Hi3).
    destruct (IH1 Hb1 Hi1) as (arg1 & Ha1 & Hv1).
    destruct (IH2 Hb2 Hi2) as (arg2 & Ha2 & Hv2).
    destruct (IH3 Hb3 Hi3) as (arg3 & Ha3 & Hv3).
    destruct (augmented_ternary f e1 e2 e3 values arg1 arg2 arg3 Ha1 Ha2 Ha3)
      as [Hr _].
    eexists. split; [exact Hr|].
    rewrite (value_ternary f e1 e2 e3 values _ _ _ Hv1 Hv2 Hv3). simpl.
    f_equal. symmetry. apply Hf.
Qed.

(** *** Constant arguments *)

(** C4: [augmented] of a constant node returns an [Augmented] with no
    Jacobian entry, for which [constant()] holds.  A unary, binary or
    ternary node whose children all return such an [Augmented] calls its
    function with [boost::none] in every Jacobian slot, and returns an
    [Augmented] with no Jacobian entry, for which [constant()] holds. *)
Theorem constant_short_circuit :
  (∀ (T : Ty) (c : El T) (values : Values),
     ∃ a, augmented (ConstantExpression c) values = mkEval (inr a) []
          ∧ jacobians a = ∅ ∧ constant a = true)
  ∧ (∀ (T A : Ty) (f : UnaryFunction T A) e (values : Values) arg,
       outcome (augmented e values) = inr arg → constant arg = true →
       ∃ a, outcome (augmented (UnaryExpression f e) values) = inr a
            ∧ calls (augmented (UnaryExpression f e) values)
              = calls (augmented e values) ++ [[false]]
            ∧ jacobians a = ∅ ∧ constant a = true)
  ∧ (∀ (T A1 A2 : Ty) (f : BinaryFunction T A1 A2) e1 e2
       (values : Values) arg1 arg2,
       outcome (augmented e1 values) = inr arg1 → constant arg1 = true →
       outcome (augmented e2 values) = inr arg2 → constant arg2 = true →
       ∃ a, outcome (augmented (BinaryExpression f e1 e2) values) = inr a
            ∧ calls (augmented (BinaryExpression f e1 e2) values)
              = calls (augmented e1 values) ++ calls (augmented e2 values)
                  ++ [[false; false]]
            ∧ jacobians a = ∅ ∧ constant a = true)
  ∧ (∀ (T A1 A2 A3 : Ty) (f : TernaryFunction T A1 A2 A3) e1 e2 e3
       (values : Values) arg1 arg2 arg3,
       outcome (augmented e1 values) = inr arg1 → constant arg1 = true →
       outcome (augmented e2 values) = inr arg2 → constant arg2 = true →
       outcome (augmented e3 values) = inr arg3 → constant arg3 = true →
       ∃ a, outcome (augmented (TernaryExpression f e1 e2 e3) values) = inr a
            ∧ calls (augmented (TernaryExpression f e1 e2 e3) values)
              = calls (augmented e1 values) ++ calls (augmented e2 values)
                  ++ calls (augmented e3 values) ++ [[false; false; false]]
            ∧ jacobians a = ∅ ∧ constant a = true).
Proof.
  split; [|split; [|split]].
  - intros T c values. by exists (Augmented_constant c).
  - intros T A f e values arg Ha Hc.
    destruct (augmented_unary f e values arg Ha) as [Hr Hl].
    rewrite Hc in Hr, Hl. apply constant_true in Hc. rewrite Hc in Hr.
    rewrite Augmented_unary_constant in Hr. eauto.
  - intros T A1 A2 f e1 e2 values arg1 arg2 Ha1 Hc1 Ha2 Hc2.
    destruct (augmented_binary f e1 e2 values arg1 arg2 Ha1 Ha2) as [Hr Hl].
    rewrite Hc1, Hc2 in Hr, Hl.
    apply constant_true in Hc1, Hc2. rewrite Hc1, Hc2 in Hr.
    rewrite Augmented_binary_constant_l, Augmented_unary_constant in Hr.
    eauto.
  - intros T A1 A2 A3 f e1 e2 e3 values arg1 arg2 arg3
      Ha1 Hc1 Ha2 Hc2 Ha3 Hc3.
    destruct (augmented_ternary f e1 e2 e3 values arg1 arg2 arg3 Ha1 Ha2 Ha3)
      as [Hr Hl].
    rewrite Hc1, Hc2, Hc3 in Hr, Hl.
    apply constant_true in Hc1, Hc2. rewrite Hc1, Hc2 in Hr.
    rewrite Augmented_binary_constant_l, Augmented_unary_constant in Hr.
    eauto.
Qed.

(** *** Keys reached along two paths *)

(** C3: when the mappings of both children of a binary node hold a key
    [k], the mapping [augmented] returns holds, under [k], [H1] times the
    block of the first child plus [H2] times the block of the second.  A
    step of the accumulation stores [H * block] under a key that has no entry
    yet, adds [H * block] to the entry of a key that has one, and leaves the
    other entries as they are. *)
Theorem BinaryExpression_path_sum {T A1 A2 : Ty} (f : BinaryFunction T A1 A2)
    e1 e2 (values : Values) arg1 arg2 k (block1 block2 : Matrix) :
  outcome (augmented e1 values) = inr arg1 →
  outcome (augmented e2 values) = inr arg2 →
  jacobians arg1 !! k = Some block1 →
  jacobians arg2 !! k = Some block2 →
  let r := f (value_of arg1) (value_of arg2) true true in
  let H1 := r.1.2 in
  let H2 := r.2 in
  (∃ a, outcome (augmented (BinaryExpression f e1 e2) values) = inr a
        ∧ jacobians a !! k = Some (madd (mmul H1 block1) (mmul H2 block2)))
  ∧ (∀ H key block jac,
       jac !! key = None →
       add_term H key block jac !! key = Some (mmul H block))
  ∧ (∀ H key block jac m,
       jac !! key = Some m →
       add_term H key block jac !! key = Some (madd m (mmul H block)))
  ∧ (∀ H key block jac key',
       key ≠ key' → add_term H key block jac !! key' = jac !! key').
Proof.
  intros Ha1 Ha2 Hk1 Hk2 r H1 H2. split; [|split; [|split]].
  - destruct (augmented_binary f e1 e2 values arg1 arg2 Ha1 Ha2) as [Hr _].
    assert (constant arg1 = false) as Hc1.
    { apply not_true_is_false. rewrite constant_true. intros He.
      by rewrite He, lookup_empty in Hk1. }
    assert (constant arg2 = false) as Hc2.
    { apply not_true_is_false. rewrite constant_true. intros He.
      by rewrite He, lookup_empty in Hk2. }
    rewrite Hc1, Hc2 in Hr. simpl in Hr. fold r in Hr.
    eexists. split; [exact Hr|].
    unfold jacobians at 1, Augmented_binary. simpl.
    by rewrite !lookup_add, Hk1, Hk2, lookup_empty.
  - intros H key block jac Hjac.
    rewrite lookup_add_term, Hjac. by case_decide.
  - intros H key block jac m Hjac.
    rewrite lookup_add_term, Hjac. by case_decide.
  - intros H key block jac key' Hne.
    rewrite lookup_add_term. by case_decide.
Qed.

(** *** The keys of the mapping *)

Lemma augmented_unary_inv {T A : Ty} (f : UnaryFunction T A) e
    (values : Values) a :
  outcome (augmented (UnaryExpression f e) values) = inr a →
  ∃ arg, outcome (augmented e values) = inr arg.
Proof.
  cbn [augmented]. intros Ha.
  apply bind_inr_inv in Ha as (arg & Harg & _). eauto.
Qed.

Lemma augmented_binary_inv {T A1 A2 : Ty} (f : BinaryFunction T A1 A2) e1 e2
    (values : Values) a :
  outcome (augmented (BinaryExpression f e1 e2) values) = inr a →
  ∃ arg1 arg2, outcome (augmented e1 values) = inr arg1
               ∧ outcome (augmented e2 values) = inr arg2.
Proof.
  cbn [augmented]. intros Ha.
  apply bind_inr_inv in Ha as (arg1 & Harg1 & Ha).
  apply bind_inr_inv in Ha as (arg2 & Harg2 & _). eauto.
Qed.

Lemma augmented_ternary_inv {T A1 A2 A3 : Ty}
    (f : TernaryFunction T A1 A2 A3) e1 e2 e3 (values : Values) a :
  outcome (augmented (TernaryExpression f e1 e2 e3) values) = inr a →
  ∃ arg1 arg2 arg3, outcome (augmented e1 values) = inr arg1
                    ∧ outcome (augmented e2 values) = inr arg2
                    ∧ outcome (augmented e3 values) = inr arg3.
Proof.
  cbn [augmented]. intros Ha.
  apply bind_inr_inv in Ha as (arg1 & Harg1 & Ha).
  apply bind_inr_inv in Ha as (arg2 & Harg2 & Ha).
  apply bind_inr_inv in Ha as (arg3 & Harg3 & _). eauto 6.
Qed.

(** C10: when [augmented] returns, every key of the mapping it returns is
    one of [keys()]. *)
Theorem jacobians_subset_keys {T : Ty} (n : ExpressionNode T)
    (values : Values) (a : Augmented T) :
  outcome (augmented n values) = inr a → dom (jacobians a) ⊆ keys n.
Proof.
  revert a.
  induction n as [T c|T k|T A f e IH|T A1 A2 f e1 IH1 e2 IH2
                 |T A1 A2 A3 f e1 IH1 e2 IH2 e3 IH3]; intros a Ha.
  - simpl in Ha. injection Ha as <-. simpl. by rewrite dom_empty_L.
  - cbn [augmented] in Ha.
    apply bind_inr_inv in Ha as (t & _ & Ha).
    simpl in Ha. injection Ha as <-. simpl.
    rewrite dom_insert_L, dom_empty_L. set_solver.
  - destruct (augmented_unary_inv _ _ _ _ Ha) as [arg Harg].
    destruct (augmented_unary f e values arg Harg) as [Hr _].
    rewrite Hr in Ha. injection Ha as <-.
    specialize (IH _ Harg). unfold jacobians in *. simpl.
    rewrite dom_add, dom_empty_L. set_solver.
  - destruct (augmented_binary_inv _ _ _ _ _ Ha)
      as (arg1 & arg2 & Harg1 & Harg2).
    destruct (augmented_binary f e1 e2 values arg1 arg2 Harg1 Harg2)
      as [Hr _].
    rewrite Hr in Ha. injection Ha as <-.
    specialize (IH1 _ Harg1). specialize (IH2 _ Harg2).
    unfold jacobians in *. simpl.
    rewrite !dom_add, dom_empty_L. set_solver.
  - destruct (augmented_ternary_inv _ _ _ _ _ _ Ha)
      as (arg1 & arg2 & arg3 & Harg1 & Harg2 & Harg3).
    destruct (augmented_ternary f e1 e2 e3 values arg1 arg2 arg3
                Harg1 Harg2 Harg3) as [Hr _].
    rewrite Hr in Ha. injection Ha as <-.
    specialize (IH1 _ Harg1). specialize (IH2 _ Harg2).
    unfold jacobians in *. simpl.
    rewrite !dom_add, dom_empty_L. set_solver.
Qed.

(** *** The order of the pairs *)

(** Under each key, folding the pairs computes the sum of the chain rule,
    taken in the order of the pairs. *)
Lemma lookup_fold_pairs (pairs : list (Matrix * JacobianMap)) k :
  fold_pairs pairs !! k = path_sum k pairs.
Proof.
  unfold fold_pairs, path_sum.
  change (@None Matrix) with ((∅ : gmap Key Matrix) !! k).
  generalize (∅ : gmap Key Matrix).
  induction pairs as [|[H terms] pairs IH]; intros jac; [done|].
  simpl. rewrite IH, lookup_add.
  by destruct (terms !! k).
Qed.

Lemma add_add_comm H1 terms1 H2 terms2 jac :
  Comm (=) madd → Assoc (=) madd →
  add H1 terms1 (add H2 terms2 jac) = add H2 terms2 (add H1 terms1 jac).
Proof.
  intros Hcomm Hassoc. apply map_eq. intros k. rewrite !lookup_add.
  destruct (terms1 !! k) as [block1|], (terms2 !! k) as [block2|],
    (jac !! k) as [m|]; simpl; try done; f_equal.
  - rewrite <- !(assoc madd). f_equal. apply (comm madd).
  - apply (comm madd).
Qed.

Lemma foldl_add_permutation (ps qs : list (Matrix * JacobianMap)) jac :
  Comm (=) madd → Assoc (=) madd →
  ps ≡ₚ qs →
  foldl (λ jacobians p, add p.1 p.2 jacobians) jac ps
  = foldl (λ jacobians p, add p.1 p.2 jacobians) jac qs.
Proof.
  intros Hcomm Hassoc Hperm. revert jac.
  induction Hperm as [|p ps qs _ IH|p q ps|ps qs rs _ IH1 _ IH2];
    intros jac; simpl.
  - done.
  - apply IH.
  - f_equal. by apply add_add_comm.
  - by rewrite IH1.
Qed.

(** Whatever the sum of matrices is, the keys of the mapping do not depend
    on the order of the pairs. *)
Lemma dom_fold_pairs (pairs : list (Matrix * JacobianMap)) :
  dom (fold_pairs pairs) = ⋃ ((λ p, dom p.2) <$> pairs).
Proof.
  unfold fold_pairs.
  assert (∀ jac,
    dom (foldl (λ jacobians p, add p.1 p.2 jacobians) jac pairs)
    = dom jac ∪ ⋃ ((λ p, dom p.2) <$> pairs)) as Hdom.
  { induction pairs as [|[H terms] pairs IH]; intros jac; simpl.
    - set_solver.
    - rewrite IH, dom_add. set_solver. }
  rewrite Hdom, dom_empty_L. set_solver.
Qed.

(** For the constructor with two pairs, commutativity of the sum is
    enough. *)
Lemma Augmented_binary_swap {T : Ty} (t : El T) H1 jac1 H2 jac2 :
  Comm (=) madd →
  Augmented_binary t H1 jac1 H2 jac2 = Augmented_binary t H2 jac2 H1 jac1.
Proof.
  intros Hcomm. unfold Augmented_binary. f_equal.
  apply map_eq. intros k. rewrite !lookup_add, lookup_empty.
  destruct (jac1 !! k) as [block1|], (jac2 !! k) as [block2|];
    simpl; try done.
  f_equal. apply (comm madd).
Qed.

(** In exact arithmetic, where the sum of matrices is commutative and
    associative, the mapping obtained by folding pairs of a local Jacobian
    and a child mapping does not depend on the order of the pairs at all. *)
Theorem fold_pairs_order_independent :
  Comm (=) madd → Assoc (=) madd →
  (∀ ps qs : list (Matrix * JacobianMap),
     ps ≡ₚ qs → fold_pairs ps = fold_pairs qs)
  ∧ (∀ (T : Ty) (t : El T) H1 jac1 H2 jac2 H3 jac3,
       jacobians (Augmented_ternary t H1 jac1 H2 jac2 H3 jac3)
         = fold_pairs [(H2, jac2); (H3, jac3); (H1, jac1)]
       ∧ jacobians (Augmented_ternary t H1 jac1 H2 jac2 H3 jac3)
         = fold_pairs [(H1, jac1); (H2, jac2); (H3, jac3)])
  ∧ (∀ (T : Ty) (t : El T) H1 jac1 H2 jac2,
       jacobians (Augmented_binary t H1 jac1 H2 jac2)
         = fold_pairs [(H1, jac1); (H2, jac2)]
       ∧ jacobians (Augmented_binary t H1 jac1 H2 jac2)
         = fold_pairs [(H2, jac2); (H1, jac1)]).
Proof.
  intros Hcomm Hassoc.
  assert (∀ ps qs : list (Matrix * JacobianMap),
            ps ≡ₚ qs → fold_pairs ps = fold_pairs qs) as Hperm.
  { intros ps qs Hpq. by apply foldl_add_permutation. }
  split; [done|]. split.
  - intros T t H1 jac1 H2 jac2 H3 jac3. split; [done|].
    change (jacobians (Augmented_ternary t H1 jac1 H2 jac2 H3 jac3))
      with (fold_pairs [(H2, jac2); (H3, jac3); (H1, jac1)]).
    apply Hperm.
    change ([(H2, jac2); (H3, jac3)] ++ [(H1, jac1)]
            ≡ₚ [(H1, jac1)] ++ [(H2, jac2); (H3, jac3)]).
    apply Permutation_app_comm.
  - intros T t H1 jac1 H2 jac2. split; [done|].
    change (jacobians (Augmented_binary t H1 jac1 H2 jac2))
      with (fold_pairs [(H1, jac1); (H2, jac2)]).
    apply Hperm. apply Permutation_swap.
Qed.

(** *** The third child of a ternary node *)

(** The mapping [augmented] returns at a ternary node holds the pairs of the
    first two children only. *)
Lemma TernaryExpression_augmented_jacobians {T A1 A2 A3 : Ty}
    (f : TernaryFunction T A1 A2 A3) e1 e2 e3 (values : Values)
    arg1 arg2 arg3 :
  outcome (augmented e1 values) = inr arg1 →
  outcome (augmented e2 values) = inr arg2 →
  outcome (augmented e3 values) = inr arg3 →
  let r := f (value_of arg1) (value_of arg2) (value_of arg3)
             (optional (constant arg1)) (optional (constant arg2))
             (optional (constant arg3)) in
  ∃ a, outcome (augmented (TernaryExpression f e1 e2 e3) values) = inr a
       ∧ jacobians a
         = fold_pairs [(local (optional (constant arg1)) r.1.1.2,
                        jacobians arg1);
                       (local (optional (constant arg2)) r.1.2,
                        jacobians arg2)].
Proof.
  intros Ha1 Ha2 Ha3 r.
  destruct (augmented_ternary f e1 e2 e3 values arg1 arg2 arg3 Ha1 Ha2 Ha3)
    as [Hr _].
  eexists. split; [exact Hr|done].
Qed.

(** *** A constant argument of a unary or binary node *)

(** The pair of a constant child adds no entry, whatever its matrix is: the
    result of a binary node with one constant child is the fold of the pair
    of the other child, and the slot of the constant child is
    [boost::none]. *)
Lemma BinaryExpression_constant_first {T A1 A2 : Ty}
    (f : BinaryFunction T A1 A2) e1 e2 (values : Values) arg1 arg2 :
  outcome (augmented e1 values) = inr arg1 → constant arg1 = true →
  outcome (augmented e2 values) = inr arg2 →
  let s2 := optional (constant arg2) in
  let r := f (value_of arg1) (value_of arg2) false s2 in
  outcome (augmented (BinaryExpression f e1 e2) values)
    = inr (Augmented_unary r.1.1 (local s2 r.2) (jacobians arg2)).
Proof.
  intros Ha1 Hc1 Ha2 s2 r.
  destruct (augmented_binary f e1 e2 values arg1 arg2 Ha1 Ha2) as [-> _].
  rewrite Hc1. apply constant_true in Hc1. rewrite Hc1.
  by rewrite Augmented_binary_constant_l.
Qed.

Lemma BinaryExpression_constant_second {T A1 A2 : Ty}
    (f : BinaryFunction T A1 A2) e1 e2 (values : Values) arg1 arg2 :
  outcome (augmented e1 values) = inr arg1 →
  outcome (augmented e2 values) = inr arg2 → constant arg2 = true →
  let s1 := optional (constant arg1) in
  let r := f (value_of arg1) (value_of arg2) s1 false in
  outcome (augmented (BinaryExpression f e1 e2) values)
    = inr (Augmented_unary r.1.1 (local s1 r.1.2) (jacobians arg1)).
Proof.
  intros Ha1 Ha2 Hc2 s1 r.
  destruct (augmented_binary f e1 e2 values arg1 arg2 Ha1 Ha2) as [-> _].
  rewrite Hc2. apply constant_true in Hc2. rewrite Hc2.
  by rewrite Augmented_binary_constant_r.
Qed.

(** ** Further properties of [Augmented] *)

Lemma add_fmap H terms : add H terms ∅ = mmul H <$> terms.
Proof.
  apply map_eq. intros k. rewrite lookup_add, lookup_fmap, lookup_empty.
  by destruct (terms !! k).
Qed.

Lemma add_union H terms jac :
  add H terms jac = union_with sum_blocks jac (mmul H <$> terms).
Proof.
  apply map_eq. intros k.
  rewrite lookup_add, lookup_union_with, lookup_fmap.
  by destruct (terms !! k), (jac !! k).
Qed.

Lemma constant_dom {T : Ty} (a : Augmented T) :
  constant a = bool_decide (dom (jacobians a) = ∅).
Proof.
  unfold constant, jacobians. apply bool_decide_ext.
  by rewrite dom_empty_iff_L.
Qed.

Lemma lookup_optional {T : Ty} (a : Augmented T) k block :
  jacobians a !! k = Some block → optional (constant a) = true.
Proof.
  intros Hk. unfold constant, jacobians in *.
  rewrite bool_decide_eq_false_2; [done|].
  intros He. by rewrite He, lookup_empty in Hk.
Qed.

(** The mapping of a pair whose matrix is the local [H] of a slot: the
    matrix is the one the function wrote as soon as the mapping has an
    entry. *)
Lemma fmap_local {T : Ty} (a : Augmented T) (h : Matrix) :
  mmul (local (optional (constant a)) h) <$> jacobians a
  = mmul h <$> jacobians a.
Proof.
  apply map_eq. intros k. rewrite !lookup_fmap.
  destruct (jacobians a !! k) as [block|] eqn:Hk; [|done].
  by rewrite (lookup_optional _ _ _ Hk).
Qed.

(** X1: [add] merges [H * terms] into the mapping it updates: an entry of
    [terms] alone is stored as [H * block], an entry under a key the mapping
    already has is added to it, and the entries under the other keys stay;
    so no key is ever removed and the keys afterwards are those of both. *)
Theorem add_merges H terms jac :
  add H terms jac = union_with sum_blocks jac (mmul H <$> terms)
  ∧ dom (add H terms jac) = dom jac ∪ dom terms
  ∧ (∀ k, terms !! k = None → add H terms jac !! k = jac !! k)
  ∧ (∀ k m, jac !! k = Some m → is_Some (add H terms jac !! k)).
Proof.
  split; [apply add_union|]. split; [apply dom_add|]. split.
  - intros k Hk. by rewrite lookup_add, Hk.
  - intros k m Hk. rewrite lookup_add, Hk. by destruct (terms !! k).
Qed.

(** X2: the loop of [add] may visit the terms in any order: folding its
    body over any listing of the entries of [terms], such as the one by
    increasing key that [std::map] gives, yields the same mapping. *)
Theorem add_order_of_terms H terms jac (l : list (Key * Matrix)) :
  l ≡ₚ map_to_list terms →
  foldl (λ j term, add_term H term.1 term.2 j) jac l = add H terms jac.
Proof. apply add_any_order. Qed.

(** X3: under each key, the constructors with one, two and three pairs
    store the sum of [H * block] over the pairs that hold the key, taken in
    the order in which the constructor adds them (for three pairs: second,
    third, first), and nothing under a key no pair holds. *)
Theorem Augmented_constructors_path_sum {T : Ty} (t : El T)
    H1 jac1 H2 jac2 H3 jac3 k :
  jacobians (Augmented_unary t H1 jac1) !! k = path_sum k [(H1, jac1)]
  ∧ jacobians (Augmented_binary t H1 jac1 H2 jac2) !! k
    = path_sum k [(H1, jac1); (H2, jac2)]
  ∧ jacobians (Augmented_ternary t H1 jac1 H2 jac2 H3 jac3) !! k
    = path_sum k [(H2, jac2); (H3, jac3); (H1, jac1)]
  ∧ (jac1 !! k = None → jac2 !! k = None → jac3 !! k = None →
     jacobians (Augmented_ternary t H1 jac1 H2 jac2 H3 jac3) !! k = None).
Proof.
  split; [|split; [|split]].
  - apply (lookup_fold_pairs [(H1, jac1)]).
  - apply (lookup_fold_pairs [(H1, jac1); (H2, jac2)]).
  - apply (lookup_fold_pairs [(H2, jac2); (H3, jac3); (H1, jac1)]).
  - intros Hk1 Hk2 Hk3. unfold jacobians, Augmented_ternary. simpl.
    by rewrite !lookup_add, Hk1, Hk2, Hk3, lookup_empty.
Qed.

(** ** Further properties of the nodes *)

(** X4: the chain rule at a unary node.  When [augmented] returns [arg] at
    the child, it returns at the node the value of [function_] and the
    mapping of the child with every block multiplied on the left by the
    matrix [function_] wrote; the keys are those of the child, the node is
    constant exactly when the child is, and [function_] is called once, its
    slot engaged exactly when the child is not constant. *)
Theorem UnaryExpression_chain_rule {T A : Ty} (f : UnaryFunction T A) e
    (values : Values) arg :
  outcome (augmented e values) = inr arg →
  let s := optional (constant arg) in
  let r := f (value_of arg) s in
  ∃ a, outcome (augmented (UnaryExpression f e) values) = inr a
       ∧ value_of a = r.1
       ∧ jacobians a = mmul r.2 <$> jacobians arg
       ∧ dom (jacobians a) = dom (jacobians arg)
       ∧ constant a = constant arg
       ∧ calls (augmented (UnaryExpression f e) values)
         = calls (augmented e values) ++ [[s]].
Proof.
  intros Ha s r.
  destruct (augmented_unary f e values arg Ha) as [Hr Hc].
  fold s r in Hr, Hc.
  assert (add (local s r.2) (jacobians arg) ∅ = mmul r.2 <$> jacobians arg)
    as Hj.
  { rewrite add_fmap. apply fmap_local. }
  eexists. split; [exact Hr|]. split; [done|].
  split; [exact Hj|]. split; [|split; [|exact Hc]].
  - unfold jacobians at 1. simpl. rewrite Hj. apply dom_fmap_L.
  - rewrite !constant_dom. unfold jacobians at 1. simpl.
    by rewrite Hj, dom_fmap_L.
Qed.

(** X5: a unary function of a leaf.  Where the key of the leaf holds [t],
    [function_] is called once with its slot engaged, and the mapping
    returned has the single entry of that key, the matrix [function_] wrote
    times the identity of dimension [t.dim()]. *)
Theorem UnaryExpression_of_leaf {T A : Ty} (f : UnaryFunction T A) k
    (values : Values) (t : El A) :
  values !! k = Some (existT A t) →
  augmented (UnaryExpression f (LeafExpression A k)) values
  = mkEval
      (inr (mkAugmented (f t true).1
              {[ k := mmul (f t true).2 (Identity (dim t) (dim t)) ]}))
      [[true]].
Proof.
  intros Hk.
  assert (augmented (LeafExpression A k) values
          = mkEval (inr (Augmented_leaf t k)) []) as Hleaf.
  { simpl. by rewrite (at_bound _ _ _ _ Hk). }
  destruct (augmented_unary f (LeafExpression A k) values
              (Augmented_leaf t k)) as [Ho Hc].
  { by rewrite Hleaf. }
  assert (constant (Augmented_leaf t k) = false) as Hconstant.
  { unfold constant, Augmented_leaf. cbn [jacobians_].
    apply bool_decide_eq_false_2, insert_non_empty. }
  rewrite Hconstant in Ho, Hc. rewrite Hleaf in Hc.
  apply Eval_eq; [|exact Hc].
  rewrite Ho. unfold Augmented_unary, jacobians, value_of, Augmented_leaf.
  cbn [jacobians_ value_ optional local].
  by rewrite add_fmap, fmap_insert, fmap_empty, insert_empty.
Qed.

(** X6: the merge at a binary node.  When [augmented] returns at both
    children, it returns at the node the value of [function_] and the
    mappings of the children, each multiplied by the matrix [function_]
    wrote for it, merged with the blocks under a common key added, first
    child first.  The keys are those of both children, the node is constant
    exactly when both children are, and each slot of the one call of
    [function_] is engaged exactly when its child is not constant. *)
Theorem BinaryExpression_merge {T A1 A2 : Ty} (f : BinaryFunction T A1 A2)
    e1 e2 (values : Values) arg1 arg2 :
  outcome (augmented e1 values) = inr arg1 →
  outcome (augmented e2 values) = inr arg2 →
  let s1 := optional (constant arg1) in
  let s2 := optional (constant arg2) in
  let r := f (value_of arg1) (value_of arg2) s1 s2 in
  ∃ a, outcome (augmented (BinaryExpression f e1 e2) values) = inr a
       ∧ value_of a = r.1.1
       ∧ jacobians a
         = union_with sum_blocks (mmul r.1.2 <$> jacobians arg1)
                                 (mmul r.2 <$> jacobians arg2)
       ∧ dom (jacobians a) = dom (jacobians arg1) ∪ dom (jacobians arg2)
       ∧ constant a = constant arg1 && constant arg2
       ∧ calls (augmented (BinaryExpression f e1 e2) values)
         = calls (augmented e1 values) ++ calls (augmented e2 values)
             ++ [[s1; s2]].
Proof.
  intros Ha1 Ha2 s1 s2 r.
  destruct (augmented_binary f e1 e2 values arg1 arg2 Ha1 Ha2) as [Hr Hc].
  fold s1 s2 r in Hr, Hc.
  eexists. split; [exact Hr|]. split; [done|].
  assert (add (local s2 r.2) (jacobians arg2)
            (add (local s1 r.1.2) (jacobians arg1) ∅)
          = union_with sum_blocks (mmul r.1.2 <$> jacobians arg1)
                                  (mmul r.2 <$> jacobians arg2)) as Hj.
  { rewrite add_union, add_fmap. unfold s1, s2. by rewrite !fmap_local. }
  assert (dom (add (local s2 r.2) (jacobians arg2)
                 (add (local s1 r.1.2) (jacobians arg1) ∅))
          = dom (jacobians arg1) ∪ dom (jacobians arg2)) as Hd.
  { rewrite !dom_add, dom_empty_L. set_solver. }
  split; [exact Hj|]. split; [exact Hd|]. split; [|exact Hc].
  rewrite !constant_dom. unfold jacobians at 1. simpl. rewrite Hd.
  rewrite <- bool_decide_and. apply bool_decide_ext.
  apply empty_union_L.
Qed.

(** X7: what a ternary node returns.  When [augmented] returns at the three
    children, it returns at the node the value of [function_], called once
    with each of its three slots engaged exactly when its child is not
    constant, and the merge of the mappings of the first and the second
    child, as a binary node does; the mapping of the third child and the
    matrix written for it do not enter the result. *)
Theorem TernaryExpression_merge {T A1 A2 A3 : Ty}
    (f : TernaryFunction T A1 A2 A3) e1 e2 e3 (values : Values)
    arg1 arg2 arg3 :
  outcome (augmented e1 values) = inr arg1 →
  outcome (augmented e2 values) = inr arg2 →
  outcome (augmented e3 values) = inr arg3 →
  let s1 := optional (constant arg1) in
  let s2 := optional (constant arg2) in
  let s3 := optional (constant arg3) in
  let r := f (value_of arg1) (value_of arg2) (value_of arg3) s1 s2 s3 in
  ∃ a, outcome (augmented (TernaryExpression f e1 e2 e3) values) = inr a
       ∧ value_of a = r.1.1.1
       ∧ jacobians a
         = union_with sum_blocks (mmul r.1.1.2 <$> jacobians arg1)
                                 (mmul r.1.2 <$> jacobians arg2)
       ∧ dom (jacobians a) = dom (jacobians arg1) ∪ dom (jacobians arg2)
       ∧ calls (augmented (TernaryExpression f e1 e2 e3) values)
         = calls (augmented e1 values) ++ calls (augmented e2 values)
             ++ calls (augmented e3 values) ++ [[s1; s2; s3]].
Proof.
  intros Ha1 Ha2 Ha3 s1 s2 s3 r.
  destruct (augmented_ternary f e1 e2 e3 values arg1 arg2 arg3 Ha1 Ha2 Ha3)
    as [Hr Hc].
  fold s1 s2 s3 r in Hr, Hc.
  eexists. split; [exact Hr|]. split; [done|].
  split; [|split; [|exact Hc]]; unfold jacobians at 1; simpl.
  - rewrite add_union, add_fmap. unfold s1, s2. by rewrite !fmap_local.
  - rewrite !dom_add, dom_empty_L. set_solver.
Qed.

(** ** Which evaluations return *)

Lemma augmented_returns {T : Ty} (n : ExpressionNode T) (values : Values) :
  (∃ a, outcome (augmented n values) = inr a) ↔ leaves_evaluate values n.
Proof.
  induction n as [T c|T k|T A f e IH|T A1 A2 f e1 IH1 e2 IH2
                 |T A1 A2 A3 f e1 IH1 e2 IH2 e3 IH3];
    cbn [leaves_evaluate].
  - split; [done|]. intros _. by exists (Augmented_constant c).
  - split.
    + intros [a Ha]. cbn [augmented] in Ha.
      apply bind_inr_inv in Ha as (t & Ht & _). eexists; eassumption.
    + intros [t Ht]. cbn [augmented]. bind_step Ht. simpl. by eexists.
  - rewrite <- IH. split.
    + intros [a Ha]. eapply augmented_unary_inv, Ha.
    + intros [arg Harg].
      destruct (augmented_unary f e values arg Harg) as [Hr _].
      eexists. exact Hr.
  - rewrite <- IH1, <- IH2. split.
    + intros [a Ha].
      destruct (augmented_binary_inv _ _ _ _ _ Ha) as (? & ? & ? & ?).
      split; eexists; eassumption.
    + intros [[arg1 Harg1] [arg2 Harg2]].
      destruct (augmented_binary f e1 e2 values _ _ Harg1 Harg2) as [Hr _].
      eexists. exact Hr.
  - rewrite <- IH1, <- IH2, <- IH3. split.
    + intros [a Ha].
      destruct (augmented_ternary_inv _ _ _ _ _ _ Ha)
        as (? & ? & ? & ? & ? & ?).
      repeat split; eexists; eassumption.
    + intros ([arg1 Harg1] & [arg2 Harg2] & [arg3 Harg3]).
      destruct (augmented_ternary f e1 e2 e3 values _ _ _ Harg1 Harg2 Harg3)
        as [Hr _].
      eexists. exact Hr.
Qed.

Lemma value_returns {T : Ty} (n : ExpressionNode T) (values : Values) :
  (∃ t, outcome (value n values) = inr t) ↔ leaves_evaluate values n.
Proof.
  induction n as [T c|T k|T A f e IH|T A1 A2 f e1 IH1 e2 IH2
                 |T A1 A2 A3 f e1 IH1 e2 IH2 e3 IH3];
    cbn [leaves_evaluate].
  - split; [done|]. intros _. by exists c.
  - done.
  - rewrite <- IH. split.
    + intros [t Ht]. cbn [value] in Ht.
      apply bind_inr_inv in Ht as (a & Ha & _). eexists; eassumption.
    + intros [a Ha]. rewrite (value_unary f e values a Ha). by eexists.
  - rewrite <- IH1, <- IH2. split.
    + intros [t Ht]. cbn [value] in Ht.
      apply bind_inr_inv in Ht as (a1 & Ha1 & Ht).
      apply bind_inr_inv in Ht as (a2 & Ha2 & _).
      split; eexists; eassumption.
    + intros [[a1 Ha1] [a2 Ha2]].
      rewrite (value_binary f e1 e2 values a1 a2 Ha1 Ha2). by eexists.
  - rewrite <- IH1, <- IH2, <- IH3. split.
    + intros [t Ht]. cbn [value] in Ht.
      apply bind_inr_inv in Ht as (a1 & Ha1 & Ht).
      apply bind_inr_inv in Ht as (a2 & Ha2 & Ht).
      apply bind_inr_inv in Ht as (a3 & Ha3 & _).
      repeat split; eexists; eassumption.
    + intros ([a1 Ha1] & [a2 Ha2] & [a3 Ha3]).
      rewrite (value_ternary f e1 e2 e3 values a1 a2 a3 Ha1 Ha2 Ha3).
      by eexists.
Qed.

(** X8: [augmented] returns exactly when the lookup of every leaf of the
    expression returns, and so does [value]: a lookup that throws anywhere
    in the expression makes both throw, and nothing else does.  So
    [augmented] returns exactly when [value] does. *)
Theorem evaluation_returns {T : Ty} (n : ExpressionNode T)
    (values : Values) :
  ((∃ a, outcome (augmented n values) = inr a) ↔ leaves_evaluate values n)
  ∧ ((∃ t, outcome (value n values) = inr t) ↔ leaves_evaluate values n)
  ∧ ((∃ a, outcome (augmented n values) = inr a)
     ↔ (∃ t, outcome (value n values) = inr t)).
Proof.
  split; [apply augmented_returns|]. split; [apply value_returns|].
  by rewrite augmented_returns, value_returns.
Qed.

(** ** The calls of the wrapped functions *)

Lemma Forall_calls_bind {A B} (P : Slots → Prop) (m : Eval A)
    (f : A → Eval B) :
  Forall P (calls m) → (∀ a, Forall P (calls (f a))) →
  Forall P (calls (m ≫= f)).
Proof.
  intros Hm Hf. unfold mbind, Eval_bind.
  destruct (outcome m) as [e|a]; simpl; [done|].
  apply Forall_app. split; [done|apply Hf].
Qed.

(** X9: [value] never asks for a Jacobian: in every call of a wrapped
    function it makes, whether it ends up returning or throwing, every slot
    is [boost::none]. *)
Theorem value_requests_no_jacobian {T : Ty} (n : ExpressionNode T)
    (values : Values) :
  Forall (Forall (λ s, s = false)) (calls (value n values)).
Proof.
  induction n as [T c|T k|T A f e IH|T A1 A2 f e1 IH1 e2 IH2
                 |T A1 A2 A3 f e1 IH1 e2 IH2 e3 IH3]; cbn [value].
  - by apply Forall_nil.
  - unfold at_. destruct (values !! k) as [[U u]|]; [|by apply Forall_nil].
    destruct (decide (U = T)); by apply Forall_nil.
  - apply Forall_calls_bind; [done|]. intros a.
    apply Forall_calls_bind; [|intros; by apply Forall_nil].
    unfold call1. destruct (f a false) as [t h]. simpl.
    by repeat constructor.
  - apply Forall_calls_bind; [done|]. intros a1.
    apply Forall_calls_bind; [done|]. intros a2.
    apply Forall_calls_bind; [|intros; by apply Forall_nil].
    unfold call2. destruct (f a1 a2 false false) as [[t h1] h2]. simpl.
    by repeat constructor.
  - apply Forall_calls_bind; [done|]. intros a1.
    apply Forall_calls_bind; [done|]. intros a2.
    apply Forall_calls_bind; [done|]. intros a3.
    apply Forall_calls_bind; [|intros; by apply Forall_nil].
    unfold call3. destruct (f a1 a2 a3 false false false) as [[[t h1] h2] h3].
    simpl. by repeat constructor.
Qed.

Lemma augmented_calls {T : Ty} (n : ExpressionNode T) (values : Values) a :
  outcome (augmented n values) = inr a →
  length (calls (augmented n values)) = function_nodes n.
Proof.
  revert a.
  induction n as [T c|T k|T A f e IH|T A1 A2 f e1 IH1 e2 IH2
                 |T A1 A2 A3 f e1 IH1 e2 IH2 e3 IH3]; intros a Ha.
  - done.
  - cbn [augmented] in *.
    apply bind_inr_inv in Ha as (t & Ht & _). bind_step Ht.
    simpl in *. unfold at_ in *.
    destruct (values !! k) as [[U u]|]; [|done].
    by destruct (decide (U = T)).
  - destruct (augmented_unary_inv _ _ _ _ Ha) as [arg Harg].
    destruct (augmented_unary f e values arg Harg) as [_ ->].
    rewrite length_app, (IH _ Harg). simpl. lia.
  - destruct (augmented_binary_inv _ _ _ _ _ Ha)
      as (arg1 & arg2 & Harg1 & Harg2).
    destruct (augmented_binary f e1 e2 values _ _ Harg1 Harg2) as [_ ->].
    rewrite !length_app, (IH1 _ Harg1), (IH2 _ Harg2). simpl. lia.
  - destruct (augmented_ternary_inv _ _ _ _ _ _ Ha)
      as (arg1 & arg2 & arg3 & Harg1 & Harg2 & Harg3).
    destruct (augmented_ternary f e1 e2 e3 values _ _ _ Harg1 Harg2 Harg3)
      as [_ ->].
    rewrite !length_app, (IH1 _ Harg1), (IH2 _ Harg2), (IH3 _ Harg3).
    simpl. lia.
Qed.

Lemma value_calls {T : Ty} (n : ExpressionNode T) (values : Values) t :
  outcome (value n values) = inr t →
  length (calls (value n values)) = function_nodes n.
Proof.
  revert t.
  induction n as [T c|T k|T A f e IH|T A1 A2 f e1 IH1 e2 IH2
                 |T A1 A2 A3 f e1 IH1 e2 IH2 e3 IH3]; intros t Ht.
  - done.
  - simpl in *. unfold at_ in *.
    destruct (values !! k) as [[U u]|]; [|done].
    by destruct (decide (U = T)).
  - cbn [value] in *.
    apply bind_inr_inv in Ht as (a & Ha & _). bind_step Ha.
    rewrite length_app, (IH _ Ha).
    unfold call1. destruct (f a false) as [v h]. simpl. lia.
  - cbn [value] in *.
    apply bind_inr_inv in Ht as (a1 & Ha1 & Ht).
    apply bind_inr_inv in Ht as (a2 & Ha2 & _).
    bind_step Ha1. bind_step Ha2.
    rewrite !length_app, (IH1 _ Ha1), (IH2 _ Ha2).
    unfold call2. destruct (f a1 a2 false false) as [[v h1] h2]. simpl. lia.
  - cbn [value] in *.
    apply bind_inr_inv in Ht as (a1 & Ha1 & Ht).
    apply bind_inr_inv in Ht as (a2 & Ha2 & Ht).
    apply bind_inr_inv in Ht as (a3 & Ha3 & _).
    bind_step Ha1. bind_step Ha2. bind_step Ha3.
    rewrite !length_app, (IH1 _ Ha1), (IH2 _ Ha2), (IH3 _ Ha3).
    unfold call3. destruct (f a1 a2 a3 false false false) as [[[v h1] h2] h3].
    simpl. lia.
Qed.

(** X10: an evaluation that returns calls the wrapped function of every
    unary, binary and ternary node once for each occurrence of the node:
    nothing is cached, a subexpression used twice is evaluated twice, and
    [augmented] makes as many calls as [value]. *)
Theorem one_call_per_node {T : Ty} (n : ExpressionNode T)
    (values : Values) (a : Augmented T) :
  outcome (augmented n values) = inr a →
  length (calls (augmented n values)) = function_nodes n
  ∧ length (calls (value n values)) = function_nodes n.
Proof.
  intros Ha. split; [by eapply augmented_calls|].
  assert (∃ t, outcome (value n values) = inr t) as [t Ht].
  { apply value_returns, augmented_returns. eexists; eassumption. }
  by eapply value_calls.
Qed.

(** ** Expressions without leaves *)

(** X11: an expression with no key evaluates on every [Values]:
    [augmented] returns a constant [Augmented], no call of a wrapped
    function asks for a Jacobian, and [value] returns the very value of
    that [Augmented], whatever the functions do when asked for one. *)
Theorem keys_empty_constant {T : Ty} (n : ExpressionNode T)
    (values : Values) :
  keys n = ∅ →
  ∃ a, outcome (augmented n values) = inr a
       ∧ jacobians a = ∅
       ∧ constant a = true
       ∧ outcome (value n values) = inr (value_of a)
       ∧ Forall (Forall (λ s, s = false)) (calls (augmented n values)).
Proof.
  induction n as [T c|T k|T A f e IH|T A1 A2 f e1 IH1 e2 IH2
                 |T A1 A2 A3 f e1 IH1 e2 IH2 e3 IH3]; cbn [keys]; intros Hk.
  - exists (Augmented_constant c). repeat split. by apply Forall_nil.
  - by apply non_empty_singleton_L in Hk.
  - destruct (IH Hk) as (arg & Ha & Hj & Hc & Hv & Hs).
    destruct (augmented_unary f e values arg Ha) as [Hr Hl].
    rewrite Hc in Hr, Hl. rewrite Hj, Augmented_unary_constant in Hr.
    eexists. split; [exact Hr|]. split; [done|]. split; [done|]. split.
    + by rewrite (value_unary f e values _ Hv).
    + rewrite Hl. apply Forall_app. split; [done|]. by repeat constructor.
  - apply empty_union_L in Hk as [Hk1 Hk2].
    destruct (IH1 Hk1) as (arg1 & Ha1 & Hj1 & Hc1 & Hv1 & Hs1).
    destruct (IH2 Hk2) as (arg2 & Ha2 & Hj2 & Hc2 & Hv2 & Hs2).
    destruct (augmented_binary f e1 e2 values arg1 arg2 Ha1 Ha2) as [Hr Hl].
    rewrite Hc1, Hc2 in Hr, Hl.
    rewrite Hj1, Hj2, Augmented_binary_constant_l, Augmented_unary_constant
      in Hr.
    eexists. split; [exact Hr|]. split; [done|]. split; [done|]. split.
    + by rewrite (value_binary f e1 e2 values _ _ Hv1 Hv2).
    + rewrite Hl. rewrite !Forall_app. repeat split; try done.
      by repeat constructor.
  - apply empty_union_L in Hk as [Hk1 Hk].
    apply empty_union_L in Hk as [Hk2 Hk3].
    destruct (IH1 Hk1) as (arg1 & Ha1 & Hj1 & Hc1 & Hv1 & Hs1).
    destruct (IH2 Hk2) as (arg2 & Ha2 & Hj2 & Hc2 & Hv2 & Hs2).
    destruct (IH3 Hk3) as (arg3 & Ha3 & Hj3 & Hc3 & Hv3 & Hs3).
    destruct (augmented_ternary f e1 e2 e3 values arg1 arg2 arg3 Ha1 Ha2 Ha3)
      as [Hr Hl].
    rewrite Hc1, Hc2, Hc3 in Hr, Hl.
    rewrite Hj1, Hj2, Augmented_binary_constant_l, Augmented_unary_constant
      in Hr.
    eexists. split; [exact Hr|]. split; [done|]. split; [done|]. split.
    + by rewrite (value_ternary f e1 e2 e3 values _ _ _ Hv1 Hv2 Hv3).
    + rewrite Hl. rewrite !Forall_app. repeat split; try done.
      by repeat constructor.
Qed.

(** ** [keys()] as the dependencies of an expression *)

(** X12: an evaluation reads [Values] under the keys of [keys()] only: on
    two [Values] that hold the same under every key of [keys()], [value]
    gives the same outcome and [augmented] gives the same outcome, whatever
    else the two hold. *)
Theorem keys_determine_evaluation {T : Ty} (n : ExpressionNode T)
    (values1 values2 : Values) :
  (∀ k, k ∈ keys n → values1 !! k = values2 !! k) →
  value n values1 = value n values2
  ∧ augmented n values1 = augmented n values2.
Proof.
  induction n as [T c|T k|T A f e IH|T A1 A2 f e1 IH1 e2 IH2
                 |T A1 A2 A3 f e1 IH1 e2 IH2 e3 IH3];
    cbn [keys]; intros Hk.
  - done.
  - assert (at_ T values1 k = at_ T values2 k) as Hat.
    { unfold at_. rewrite (Hk k); [done|]. by apply elem_of_singleton. }
    cbn [value augmented]. by rewrite Hat.
  - destruct (IH Hk) as [Hv Ha]. cbn [value augmented].
    by rewrite Hv, Ha.
  - destruct IH1 as [Hv1 Ha1]; [intros k ?; apply Hk; set_solver|].
    destruct IH2 as [Hv2 Ha2]; [intros k ?; apply Hk; set_solver|].
    cbn [value augmented]. by rewrite Hv1, Hv2, Ha1, Ha2.
  - destruct IH1 as [Hv1 Ha1]; [intros k ?; apply Hk; set_solver|].
    destruct IH2 as [Hv2 Ha2]; [intros k ?; apply Hk; set_solver|].
    destruct IH3 as [Hv3 Ha3]; [intros k ?; apply Hk; set_solver|].
    cbn [value augmented]. by rewrite Hv1, Hv2, Hv3, Ha1, Ha2, Ha3.
Qed.

(** X13: in an expression without ternary nodes, the mapping [augmented]
    returns has an entry under every key of [keys()] and under no other
    key; so the result is constant exactly when the expression has no
    key. *)
Theorem jacobians_keys_exact {T : Ty} (n : ExpressionNode T)
    (values : Values) (a : Augmented T) :
  ternary_free n = true →
  outcome (augmented n values) = inr a →
  dom (jacobians a) = keys n ∧ (constant a = true ↔ keys n = ∅).
Proof.
  intros Hfree Ha.
  assert (dom (jacobians a) = keys n) as Hdom.
  { revert a Ha.
    induction n as [T c|T k|T A f e IH|T A1 A2 f e1 IH1 e2 IH2
                   |T A1 A2 A3 f e1 IH1 e2 IH2 e3 IH3];
      cbn [ternary_free] in Hfree; intros a Ha.
    - simpl in Ha. injection Ha as <-. simpl. by rewrite dom_empty_L.
    - cbn [augmented] in Ha.
      apply bind_inr_inv in Ha as (t & _ & Ha).
      simpl in Ha. injection Ha as <-. simpl.
      rewrite dom_insert_L, dom_empty_L. set_solver.
    - destruct (augmented_unary_inv _ _ _ _ Ha) as [arg Harg].
      destruct (augmented_unary f e values arg Harg) as [Hr _].
      rewrite Hr in Ha. injection Ha as <-.
      specialize (IH Hfree _ Harg). unfold jacobians in *. simpl.
      rewrite dom_add, dom_empty_L, IH. set_solver.
    - apply andb_prop in Hfree as [Hfree1 Hfree2].
      destruct (augmented_binary_inv _ _ _ _ _ Ha)
        as (arg1 & arg2 & Harg1 & Harg2).
      destruct (augmented_binary f e1 e2 values arg1 arg2 Harg1 Harg2)
        as [Hr _].
      rewrite Hr in Ha. injection Ha as <-.
      specialize (IH1 Hfree1 _ Harg1). specialize (IH2 Hfree2 _ Harg2).
      unfold jacobians in *. simpl.
      rewrite !dom_add, dom_empty_L, IH1, IH2. set_solver.
    - discriminate Hfree. }
  split; [done|].
  rewrite constant_dom, bool_decide_eq_true. by rewrite Hdom.
Qed.

(** ** Exceptions of the children *)

Lemma bind_inl {A B} (m : Eval A) (f : A → Eval B) err :
  outcome m = inl err → m ≫= f = mkEval (inl err) (calls m).
Proof. unfold mbind, Eval_bind. by intros ->. Qed.

Lemma bind_inr_eq {A B} (m : Eval A) (f : A → Eval B) a :
  outcome m = inr a →
  m ≫= f = mkEval (outcome (f a)) (calls m ++ calls (f a)).
Proof. unfold mbind, Eval_bind. by intros ->. Qed.

(** X14: when [augmented] throws at a child, the node throws the same
    exception without calling its function, and the children after that
    one are not evaluated: the calls made are those of the children up to
    the one that threw. *)
Theorem augmented_throws_at_child :
  (∀ (T A : Ty) (f : UnaryFunction T A) e (values : Values) err,
     outcome (augmented e values) = inl err →
     augmented (UnaryExpression f e) values
     = mkEval (inl err) (calls (augmented e values)))
  ∧ (∀ (T A1 A2 : Ty) (f : BinaryFunction T A1 A2) e1 e2
       (values : Values) err,
       outcome (augmented e1 values) = inl err →
       augmented (BinaryExpression f e1 e2) values
       = mkEval (inl err) (calls (augmented e1 values)))
  ∧ (∀ (T A1 A2 : Ty) (f : BinaryFunction T A1 A2) e1 e2
       (values : Values) arg1 err,
       outcome (augmented e1 values) = inr arg1 →
       outcome (augmented e2 values) = inl err →
       augmented (BinaryExpression f e1 e2) values
       = mkEval (inl err)
           (calls (augmented e1 values) ++ calls (augmented e2 values)))
  ∧ (∀ (T A1 A2 A3 : Ty) (f : TernaryFunction T A1 A2 A3) e1 e2 e3
       (values : Values) err,
       outcome (augmented e1 values) = inl err →
       augmented (TernaryExpression f e1 e2 e3) values
       = mkEval (inl err) (calls (augmented e1 values)))
  ∧ (∀ (T A1 A2 A3 : Ty) (f : TernaryFunction T A1 A2 A3) e1 e2 e3
       (values : Values) arg1 err,
       outcome (augmented e1 values) = inr arg1 →
       outcome (augmented e2 values) = inl err →
       augmented (TernaryExpression f e1 e2 e3) values
       = mkEval (inl err)
           (calls (augmented e1 values) ++ calls (augmented e2 values)))
  ∧ (∀ (T A1 A2 A3 : Ty) (f : TernaryFunction T A1 A2 A3) e1 e2 e3
       (values : Values) arg1 arg2 err,
       outcome (augmented e1 values) = inr arg1 →
       outcome (augmented e2 values) = inr arg2 →
       outcome (augmented e3 values) = inl err →
       augmented (TernaryExpression f e1 e2 e3) values
       = mkEval (inl err)
           (calls (augmented e1 values) ++ calls (augmented e2 values)
              ++ calls (augmented e3 values))).
Proof.
  repeat split; intros; cbn [augmented].
  - by apply bind_inl.
  - by apply bind_inl.
  - erewrite bind_inr_eq by eassumption.
    erewrite (bind_inl (augmented e2 values)) by eassumption. done.
  - by apply bind_inl.
  - erewrite bind_inr_eq by eassumption.
    erewrite (bind_inl (augmented e2 values)) by eassumption. done.
  - erewrite bind_inr_eq by eassumption.
    erewrite (bind_inr_eq (augmented e2 values)) by eassumption.
    erewrite (bind_inl (augmented e3 values)) by eassumption.
    cbn [outcome calls]. by rewrite (assoc (++)).
Qed.

(** ** The shape of the result *)

Lemma calls_at (T : Ty) (values : Values) k : calls (at_ T values k) = [].
Proof.
  unfold at_. destruct (values !! k) as [[U u]|]; [|done].
  by destruct (decide (U = T)).
Qed.

(** X15: the keys of the mapping [augmented] returns, and the slots it
    engages in the calls it makes, are the same on every [Values] on which
    it returns: they depend on the expression, not on the values of the
    variables nor on what the functions compute. *)
Theorem jacobians_keys_fixed {T : Ty} (n : ExpressionNode T)
    (values1 values2 : Values) (a1 a2 : Augmented T) :
  outcome (augmented n values1) = inr a1 →
  outcome (augmented n values2) = inr a2 →
  dom (jacobians a1) = dom (jacobians a2)
  ∧ constant a1 = constant a2
  ∧ calls (augmented n values1) = calls (augmented n values2).
Proof.
  intros Ha1 Ha2.
  assert (dom (jacobians a1) = dom (jacobians a2)
          ∧ calls (augmented n values1) = calls (augmented n values2))
    as [Hd Hc].
  { revert a1 a2 Ha1 Ha2.
    induction n as [T c|T k|T A f e IH|T A1 A2 f e1 IH1 e2 IH2
                   |T A1 A2 A3 f e1 IH1 e2 IH2 e3 IH3]; intros a1 a2 Ha1 Ha2.
    - simpl in Ha1, Ha2. by injection Ha1 as <-; injection Ha2 as <-.
    - cbn [augmented] in *.
      apply bind_inr_inv in Ha1 as (t1 & Ht1 & Ha1).
      apply bind_inr_inv in Ha2 as (t2 & Ht2 & Ha2).
      rewrite (bind_inr_eq _ _ _ Ht1), (bind_inr_eq _ _ _ Ht2).
      simpl in Ha1, Ha2. injection Ha1 as <-; injection Ha2 as <-.
      split.
      + unfold jacobians, Augmented_leaf. cbn [jacobians_].
        by rewrite !dom_insert_L.
      + cbn [calls value]. by rewrite !calls_at.
    - destruct (augmented_unary_inv _ _ _ _ Ha1) as [arg1 Harg1].
      destruct (augmented_unary_inv _ _ _ _ Ha2) as [arg2 Harg2].
      destruct (augmented_unary f e values1 arg1 Harg1) as [Hr1 Hl1].
      destruct (augmented_unary f e values2 arg2 Harg2) as [Hr2 Hl2].
      rewrite Hr1 in Ha1. rewrite Hr2 in Ha2.
      injection Ha1 as <-; injection Ha2 as <-.
      destruct (IH _ _ Harg1 Harg2) as [Hd Hc].
      rewrite Hl1, Hl2, Hc, !constant_dom, Hd. split; [|done].
      unfold jacobians in *. simpl. by rewrite !dom_add, Hd.
    - destruct (augmented_binary_inv _ _ _ _ _ Ha1)
        as (arg11 & arg12 & Harg11 & Harg12).
      destruct (augmented_binary_inv _ _ _ _ _ Ha2)
        as (arg21 & arg22 & Harg21 & Harg22).
      destruct (augmented_binary f e1 e2 values1 _ _ Harg11 Harg12)
        as [Hr1 Hl1].
      destruct (augmented_binary f e1 e2 values2 _ _ Harg21 Harg22)
        as [Hr2 Hl2].
      rewrite Hr1 in Ha1. rewrite Hr2 in Ha2.
      injection Ha1 as <-; injection Ha2 as <-.
      destruct (IH1 _ _ Harg11 Harg21) as [Hd1 Hc1].
      destruct (IH2 _ _ Harg12 Harg22) as [Hd2 Hc2].
      rewrite Hl1, Hl2, Hc1, Hc2, !constant_dom, Hd1, Hd2. split; [|done].
      unfold jacobians in *. simpl. by rewrite !dom_add, Hd1, Hd2.
    - destruct (augmented_ternary_inv _ _ _ _ _ _ Ha1)
        as (arg11 & arg12 & arg13 & Harg11 & Harg12 & Harg13).
      destruct (augmented_ternary_inv _ _ _ _ _ _ Ha2)
        as (arg21 & arg22 & arg23 & Harg21 & Harg22 & Harg23).
      destruct (augmented_ternary f e1 e2 e3 values1 _ _ _
                  Harg11 Harg12 Harg13) as [Hr1 Hl1].
      destruct (augmented_ternary f e1 e2 e3 values2 _ _ _
                  Harg21 Harg22 Harg23) as [Hr2 Hl2].
      rewrite Hr1 in Ha1. rewrite Hr2 in Ha2.
      injection Ha1 as <-; injection Ha2 as <-.
      destruct (IH1 _ _ Harg11 Harg21) as [Hd1 Hc1].
      destruct (IH2 _ _ Harg12 Harg22) as [Hd2 Hc2].
      destruct (IH3 _ _ Harg13 Harg23) as [Hd3 Hc3].
      rewrite Hl1, Hl2, Hc1, Hc2, Hc3, !constant_dom, Hd1, Hd2, Hd3.
      split; [|done].
      unfold jacobians in *. simpl. by rewrite !dom_add, Hd1, Hd2. }
  split; [done|]. split; [|done].
  by rewrite !constant_dom, Hd.
Qed.

(** ** Pairs that add nothing, and nodes composed *)

(** X16: a pair whose mapping is empty adds nothing, whatever its matrix
    is: a constructor given such a pair builds what the constructor with
    one pair fewer builds from the other pairs, in the order in which it
    adds them. *)
Theorem empty_pair_adds_nothing {T : Ty} (t : El T) H1 H2 H3 jac jac' :
  add H1 ∅ jac = jac
  ∧ Augmented_unary t H1 ∅ = Augmented_constant t
  ∧ Augmented_binary t H1 ∅ H2 jac = Augmented_unary t H2 jac
  ∧ Augmented_binary t H1 jac H2 ∅ = Augmented_unary t H1 jac
  ∧ Augmented_ternary t H1 ∅ H2 jac H3 jac'
    = Augmented_binary t H2 jac H3 jac'
  ∧ Augmented_ternary t H1 jac H2 ∅ H3 jac'
    = Augmented_binary t H3 jac' H1 jac
  ∧ Augmented_ternary t H1 jac H2 jac' H3 ∅
    = Augmented_binary t H2 jac' H1 jac.
Proof.
  unfold Augmented_ternary, Augmented_binary, Augmented_unary,
    Augmented_constant.
  by rewrite !add_empty.
Qed.

Lemma Augmented_unary_local {T A : Ty} (t : El T) (arg : Augmented A) h :
  jacobians (Augmented_unary t (local (optional (constant arg)) h)
               (jacobians arg))
  = mmul h <$> jacobians arg.
Proof.
  unfold jacobians at 1, Augmented_unary. cbn [jacobians_].
  rewrite add_fmap. apply fmap_local.
Qed.

Lemma Augmented_binary_local {T A1 A2 : Ty} (t : El T)
    (arg1 : Augmented A1) (arg2 : Augmented A2) h1 h2 :
  jacobians (Augmented_binary t
               (local (optional (constant arg1)) h1) (jacobians arg1)
               (local (optional (constant arg2)) h2) (jacobians arg2))
  = union_with sum_blocks (mmul h1 <$> jacobians arg1)
                          (mmul h2 <$> jacobians arg2).
Proof.
  unfold jacobians at 1, Augmented_binary. cbn [jacobians_].
  by rewrite add_union, add_fmap, !fmap_local.
Qed.

(** X17: two unary nodes on top of each other.  The mapping of
    [g (f (e))] is the mapping of [e] with every block multiplied by the
    matrix of [f] and then by the matrix of [g].  Both functions get their
    slot engaged exactly when [e] is not constant. *)
Theorem UnaryExpression_compose {T B A : Ty} (g : UnaryFunction T B)
    (f : UnaryFunction B A) e (values : Values) arg :
  outcome (augmented e values) = inr arg →
  let s := optional (constant arg) in
  let rf := f (value_of arg) s in
  let rg := g rf.1 s in
  ∃ a, outcome (augmented (UnaryExpression g (UnaryExpression f e)) values)
       = inr a
       ∧ value_of a = rg.1
       ∧ jacobians a = (λ block, mmul rg.2 (mmul rf.2 block))
                         <$> jacobians arg
       ∧ calls (augmented (UnaryExpression g (UnaryExpression f e)) values)
         = calls (augmented e values) ++ [[s]; [s]].
Proof.
  intros Ha s rf rg.
  destruct (augmented_unary f e values arg Ha) as [Hf Hfc].
  fold s rf in Hf, Hfc.
  set (af := Augmented_unary rf.1 (local s rf.2) (jacobians arg)) in *.
  assert (jacobians af = mmul rf.2 <$> jacobians arg) as Hjf.
  { apply Augmented_unary_local. }
  assert (constant af = constant arg) as Hcf.
  { by rewrite !constant_dom, Hjf, dom_fmap_L. }
  destruct (augmented_unary g (UnaryExpression f e) values af Hf)
    as [Hg Hgc].
  rewrite Hcf in Hg, Hgc. fold s in Hg, Hgc.
  change (value_of af) with rf.1 in Hg. fold rg in Hg.
  assert (jacobians (Augmented_unary rg.1 (local s rg.2) (jacobians af))
          = (λ block, mmul rg.2 (mmul rf.2 block)) <$> jacobians arg)
    as Hj.
  { unfold s. rewrite <- Hcf, Augmented_unary_local, Hjf.
    by rewrite <- map_fmap_compose. }
  eexists. split; [exact Hg|]. split; [done|]. split; [exact Hj|].
  rewrite Hgc, Hfc. by rewrite <- (assoc (++)).
Qed.

(** X18: a binary node whose two arguments are the same expression.  The
    expression is evaluated twice, and every block of its mapping comes out
    as the matrix of the first slot times the block plus the matrix of the
    second slot times the block. *)
Theorem BinaryExpression_shared {T A : Ty} (f : BinaryFunction T A A) e
    (values : Values) arg :
  outcome (augmented e values) = inr arg →
  let s := optional (constant arg) in
  let r := f (value_of arg) (value_of arg) s s in
  ∃ a, outcome (augmented (BinaryExpression f e e) values) = inr a
       ∧ value_of a = r.1.1
       ∧ jacobians a
         = (λ block, madd (mmul r.1.2 block) (mmul r.2 block))
             <$> jacobians arg
       ∧ calls (augmented (BinaryExpression f e e) values)
         = calls (augmented e values) ++ calls (augmented e values)
             ++ [[s; s]].
Proof.
  intros Ha s r.
  destruct (augmented_binary f e e values arg arg Ha Ha) as [Hr Hc].
  fold s r in Hr, Hc.
  eexists. split; [exact Hr|]. split; [done|]. split; [|exact Hc].
  unfold s. rewrite Augmented_binary_local.
  apply map_eq. intros k.
  rewrite lookup_union_with, !lookup_fmap.
  by destruct (jacobians arg !! k).
Qed.

(** ** The order of the pairs, for a sum that is only commutative *)

Lemma path_sum_holders (pairs : list (Matrix * JacobianMap)) k :
  path_sum k pairs = path_sum k (holders k pairs).
Proof.
  unfold path_sum, holders. generalize (@None Matrix).
  induction pairs as [|p pairs IH]; intros acc; [done|].
  rewrite filter_cons. simpl.
  destruct (decide (is_Some (p.2 !! k))) as [[block Hp]|Hp]; simpl.
  - rewrite Hp. apply IH.
  - apply eq_None_not_Some in Hp. rewrite Hp. apply IH.
Qed.

Lemma path_sum_two (p q : Matrix * JacobianMap) k block1 block2 :
  p.2 !! k = Some block1 → q.2 !! k = Some block2 →
  path_sum k [p; q] = Some (madd (mmul p.1 block1) (mmul q.1 block2)).
Proof. intros Hp Hq. unfold path_sum. simpl. by rewrite Hp, Hq. Qed.

Lemma path_sum_three (p q r : Matrix * JacobianMap) k block1 block2 block3 :
  p.2 !! k = Some block1 → q.2 !! k = Some block2 →
  r.2 !! k = Some block3 →
  path_sum k [p; q; r]
  = Some (madd (madd (mmul p.1 block1) (mmul q.1 block2))
               (mmul r.1 block3)).
Proof. intros Hp Hq Hr. unfold path_sum. simpl. by rewrite Hp, Hq, Hr. Qed.

Lemma path_sum_permutation (ps qs : list (Matrix * JacobianMap)) k :
  Comm (=) madd →
  ps ≡ₚ qs → length (holders k ps) ≤ 2 →
  path_sum k ps = path_sum k qs.
Proof.
  intros Hcomm Hperm Hlen.
  rewrite (path_sum_holders ps), (path_sum_holders qs).
  assert (holders k ps ≡ₚ holders k qs) as Hh.
  { unfold holders. by rewrite Hperm. }
  assert (∀ p, p ∈ holders k ps → is_Some (p.2 !! k)) as Hin.
  { intros p Hp. unfold holders in Hp.
    by apply list_elem_of_filter in Hp as [? _]. }
  destruct (holders k ps) as [|p [|q [|r l]]].
  - by apply Permutation_nil in Hh as ->.
  - by apply Permutation_length_1_inv in Hh as ->.
  - destruct (Hin p) as [block1 Hp]; [set_solver|].
    destruct (Hin q) as [block2 Hq]; [set_solver|].
    apply Permutation_length_2_inv in Hh as [-> | ->]; [done|].
    rewrite (path_sum_two p q k _ _ Hp Hq), (path_sum_two q p k _ _ Hq Hp).
    f_equal. apply (comm madd).
  - simpl in Hlen. lia.
Qed.

(** C8: the keys of the mapping the constructors with several pairs build
    do not depend on the order in which the pairs are folded in; and, the
    sum of matrices being commutative, neither does the block under any key
    that at most two of the pairs hold.  So the constructor with two pairs
    builds the same mapping in both orders, and the constructor with three
    pairs, which folds them in the order second, third, first, builds under
    every such key the block of the order first, second, third.  Under a key
    that all three pairs hold it stores [(H2*b2 + H3*b3) + H1*b1], where the
    order first, second, third stores [(H1*b1 + H2*b2) + H3*b3]: the same
    three contributions, summed in another order. *)
Theorem fold_pairs_order_commutative :
  Comm (=) madd →
  (∀ ps qs : list (Matrix * JacobianMap),
     ps ≡ₚ qs → dom (fold_pairs ps) = dom (fold_pairs qs))
  ∧ (∀ (ps qs : list (Matrix * JacobianMap)) k,
       ps ≡ₚ qs → length (holders k ps) ≤ 2 →
       fold_pairs ps !! k = fold_pairs qs !! k)
  ∧ (∀ (T : Ty) (t : El T) H1 jac1 H2 jac2,
       jacobians (Augmented_binary t H1 jac1 H2 jac2)
         = fold_pairs [(H1, jac1); (H2, jac2)]
       ∧ jacobians (Augmented_binary t H1 jac1 H2 jac2)
         = fold_pairs [(H2, jac2); (H1, jac1)])
  ∧ (∀ (T : Ty) (t : El T) H1 jac1 H2 jac2 H3 jac3,
       jacobians (Augmented_ternary t H1 jac1 H2 jac2 H3 jac3)
         = fold_pairs [(H2, jac2); (H3, jac3); (H1, jac1)]
       ∧ (∀ k,
            length (holders k [(H1, jac1); (H2, jac2); (H3, jac3)]) ≤ 2 →
            jacobians (Augmented_ternary t H1 jac1 H2 jac2 H3 jac3) !! k
            = fold_pairs [(H1, jac1); (H2, jac2); (H3, jac3)] !! k)
       ∧ (∀ k block1 block2 block3,
            jac1 !! k = Some block1 → jac2 !! k = Some block2 →
            jac3 !! k = Some block3 →
            jacobians (Augmented_ternary t H1 jac1 H2 jac2 H3 jac3) !! k
            = Some (madd (madd (mmul H2 block2) (mmul H3 block3))
                         (mmul H1 block1))
            ∧ fold_pairs [(H1, jac1); (H2, jac2); (H3, jac3)] !! k
              = Some (madd (madd (mmul H1 block1) (mmul H2 block2))
                           (mmul H3 block3)))).
Proof.
  intros Hcomm.
  assert (∀ (ps qs : list (Matrix * JacobianMap)) k,
            ps ≡ₚ qs → length (holders k ps) ≤ 2 →
            fold_pairs ps !! k = fold_pairs qs !! k) as Hkey.
  { intros ps qs k Hperm Hlen. rewrite !lookup_fold_pairs.
    by apply path_sum_permutation. }
  split; [|split; [exact Hkey|split]].
  - intros ps qs Hperm. rewrite !dom_fold_pairs. by rewrite Hperm.
  - intros T t H1 jac1 H2 jac2. split; [done|].
    change (jacobians (Augmented_binary t H1 jac1 H2 jac2))
      with (fold_pairs [(H1, jac1); (H2, jac2)]).
    apply map_eq. intros k. apply Hkey; [apply Permutation_swap|].
    unfold holders. etrans; [apply length_filter|]. simpl. lia.
  - intros T t H1 jac1 H2 jac2 H3 jac3. split; [done|].
    change (jacobians (Augmented_ternary t H1 jac1 H2 jac2 H3 jac3))
      with (fold_pairs [(H2, jac2); (H3, jac3); (H1, jac1)]).
    assert ([(H2, jac2); (H3, jac3); (H1, jac1)]
            ≡ₚ [(H1, jac1); (H2, jac2); (H3, jac3)]) as Hperm.
    { change ([(H2, jac2); (H3, jac3)] ++ [(H1, jac1)]
              ≡ₚ [(H1, jac1)] ++ [(H2, jac2); (H3, jac3)]).
      apply Permutation_app_comm. }
    split.
    + intros k Hlen. apply Hkey; [exact Hperm|].
      unfold holders in *. by rewrite Hperm.
    + intros k block1 block2 block3 Hk1 Hk2 Hk3.
      rewrite !lookup_fold_pairs. split.
      * by apply (path_sum_three (H2, jac2) (H3, jac3) (H1, jac1)).
      * by apply (path_sum_three (H1, jac1) (H2, jac2) (H3, jac3)).
Qed.

End Theory.

(** ** The properties on the concrete expressions *)

Section Concrete.

Import Geometry Examples.

#[local] Existing Instance IntMatrix.ops.
#[local] Existing Instance Geometry.types.

Lemma zip_with_comm {A} (f : A → A → A) (l1 l2 : list A) :
  (∀ a b, f a b = f b a) → zip_with f l1 l2 = zip_with f l2 l1.
Proof.
  intros Hf. revert l2.
  induction l1 as [|a l1 IH]; intros [|b l2]; simpl; [done..|].
  by rewrite Hf, IH.
Qed.

Lemma zip_with_assoc {A} (f : A → A → A) (l1 l2 l3 : list A) :
  (∀ a b c, f a (f b c) = f (f a b) c) →
  zip_with f l1 (zip_with f l2 l3) = zip_with f (zip_with f l1 l2) l3.
Proof.
  intros Hf. revert l2 l3.
  induction l1 as [|a l1 IH]; intros [|b l2] [|c l3]; simpl; [done..|].
  by rewrite Hf, IH.
Qed.

Lemma IntMatrix_add_comm : Comm (=) IntMatrix.add.
Proof.
  intros A B. unfold IntMatrix.add. apply zip_with_comm.
  intros r1 r2. apply zip_with_comm. intros a b. lia.
Qed.

Lemma IntMatrix_add_assoc : Assoc (=) IntMatrix.add.
Proof.
  intros A B C. unfold IntMatrix.add. apply zip_with_assoc.
  intros r1 r2 r3. apply zip_with_assoc. intros a b c. lia.
Qed.

Lemma LeafExpression_lookup_witness :
  (outcome (value absent x) = inl (ValuesKeyDoesNotExist 9)
   ∧ outcome (augmented absent x) = inl (ValuesKeyDoesNotExist 9))
  ∧ (outcome (value mistyped x) = inl (ValuesIncorrectType 2)
     ∧ outcome (augmented mistyped x) = inl (ValuesIncorrectType 2))
  ∧ (outcome (value s x) = inr 3%Z
     ∧ ∃ a, outcome (augmented s x) = inr a ∧ value_of a = 3%Z).
Proof.
  split; [|split].
  - apply (LeafExpression_lookup (V:=types) LieScalar 9%N x). reflexivity.
  - apply (proj1 (proj2 (LeafExpression_lookup (V:=types) LieScalar 2%N x))
             Point2 (4, 5)%Z).
    + reflexivity.
    + discriminate.
  - apply (proj2 (proj2 (LeafExpression_lookup (V:=types) LieScalar 1%N x))
             3%Z).
    reflexivity.
Defined.

Lemma Augmented_leaf_identity_witness :
  x !! 1%N = Some (existT LieScalar 3%Z)
  ∧ outcome (augmented s x) = inr s_augmented.
Proof.
  split; [reflexivity|].
  apply (proj2 (proj2 (proj2
    (Augmented_leaf_identity (V:=types) (T:=LieScalar) 3%Z 1%N))) x).
  reflexivity.
Defined.

Lemma value_augmented_value_witness :
  binds x error ∧ value_ignores_slots error
  ∧ ∃ a, outcome (augmented error x) = inr a
         ∧ outcome (value error x) = inr (value_of a).
Proof.
  assert (binds x error) as Hb.
  { simpl. repeat split; eexists; reflexivity. }
  assert (value_ignores_slots error) as Hi.
  { simpl. repeat split. }
  split; [exact Hb|]. split; [exact Hi|].
  exact (value_augmented_value error x Hb Hi).
Defined.

Lemma constant_short_circuit_witness :
  ∃ a, outcome (augmented error_constant x) = inr a
       ∧ calls (augmented error_constant x) = [[false; false; false]]
       ∧ jacobians a = ∅ ∧ constant a = true.
Proof.
  destruct (proj2 (proj2 (proj2 (constant_short_circuit (V:=types))))
              LieScalar LieScalar LieScalar LieScalar residual
              (ConstantExpression (V:=types) (T:=LieScalar) 3%Z)
              (ConstantExpression (V:=types) (T:=LieScalar) 2%Z)
              (ConstantExpression (V:=types) (T:=LieScalar) 4%Z) x
              (Augmented_constant (V:=types) (T:=LieScalar) 3%Z)
              (Augmented_constant (V:=types) (T:=LieScalar) 2%Z)
              (Augmented_constant (V:=types) (T:=LieScalar) 4%Z)
              eq_refl eq_refl eq_refl eq_refl eq_refl eq_refl)
    as (a & Ha & Hcalls & Hjac & Hconstant).
  exists a. split; [exact Ha|]. split; [exact Hcalls|]. by split.
Defined.

Lemma BinaryExpression_path_sum_witness :
  outcome (augmented s x) = inr s_augmented
  ∧ jacobians s_augmented !! 1%N = Some [[1%Z]]
  ∧ ∃ a, outcome (augmented square x) = inr a
         ∧ jacobians a !! 1%N = Some [[6%Z]].
Proof.
  split; [reflexivity|]. split; [reflexivity|].
  apply (BinaryExpression_path_sum times s s x s_augmented s_augmented
           1%N [[1%Z]] [[1%Z]]); reflexivity.
Defined.

Lemma jacobians_subset_keys_witness :
  outcome (augmented error x) = inr error_augmented
  ∧ dom (jacobians error_augmented) ⊆ keys error.
Proof.
  split; [reflexivity|].
  apply (jacobians_subset_keys error x error_augmented). reflexivity.
Defined.

Lemma fold_pairs_order_independent_witness :
  jacobians (Augmented_ternary (0%Z : el LieScalar)
               [[-2]]%Z {[ 1%N := [[1%Z]] ]}
               [[-3]]%Z {[ 1%N := [[2%Z]] ]}
               [[-1]]%Z {[ 1%N := [[5%Z]] ]})
  = fold_pairs [([[-2]]%Z, {[ 1%N := [[1%Z]] ]});
                ([[-3]]%Z, {[ 1%N := [[2%Z]] ]});
                ([[-1]]%Z, {[ 1%N := [[5%Z]] ]})].
Proof.
  destruct (fold_pairs_order_independent (M:=IntMatrix.ops) (V:=types)
              IntMatrix_add_comm IntMatrix_add_assoc) as (_ & Hternary & _).
  apply Hternary.
Defined.

(** C1: for the residual of the three leaves [s], [d] and [b], all bound
    in [x], the third child is not constant and its mapping holds key 4, and
    the function is asked for its three Jacobians; the chain rule over the
    three argument positions gives [H3 * Identity(1, 1)], that is [-1], under
    key 4, but the mapping [augmented] returns has no entry under key 4: only
    the pairs of the first two children are folded. *)
Theorem TernaryExpression_drops_third_child :
  outcome (augmented s x) = inr s_augmented
  ∧ outcome (augmented d x) = inr d_augmented
  ∧ outcome (augmented b x) = inr b_augmented
  ∧ constant b_augmented = false
  ∧ jacobians b_augmented !! 4%N = Some [[1%Z]]
  ∧ residual 3%Z 2%Z 4%Z true true true
    = (0%Z, [[-2]]%Z, [[-3]]%Z, [[-1]]%Z)
  ∧ calls (augmented error x) = [[true; true; true]]
  ∧ path_sum 4 [([[-2]]%Z, jacobians s_augmented);
                ([[-3]]%Z, jacobians d_augmented);
                ([[-1]]%Z, jacobians b_augmented)] = Some [[-1]]%Z
  ∧ outcome (augmented error x) = inr error_augmented
  ∧ jacobians error_augmented !! 4%N = None.
Proof. repeat split. Qed.

(** C9: for the residual with a constant first argument and the leaves [d]
    and [b], the first slot of the function is [boost::none] and the first
    pair adds no entry, but the mapping [augmented] returns is not the fold
    of the pairs of the two children that are not constant: the pair of the
    third child, with its entry under key 4, is missing. *)
Theorem TernaryExpression_constant_argument_drops_third :
  constant (Augmented_constant (V:=types) (T:=LieScalar) 3%Z) = true
  ∧ constant d_augmented = false
  ∧ constant b_augmented = false
  ∧ calls (augmented error_fixed_scale x) = [[false; true; true]]
  ∧ outcome (augmented error_fixed_scale x)
    = inr error_fixed_scale_augmented
  ∧ jacobians error_fixed_scale_augmented = {[ 3%N := [[-3]]%Z ]}
  ∧ fold_pairs [([[-3]]%Z, jacobians d_augmented);
                ([[-1]]%Z, jacobians b_augmented)]
    = <[3%N := [[-3]]%Z]> {[ 4%N := [[-1]]%Z ]}
  ∧ jacobians error_fixed_scale_augmented
    ≠ fold_pairs [([[-3]]%Z, jacobians d_augmented);
                  ([[-1]]%Z, jacobians b_augmented)].
Proof.
  repeat split.
  intros Heq. apply (f_equal (λ jac, jac !! 4%N)) in Heq. discriminate Heq.
Qed.

End Concrete.

(** ** The further properties on the concrete expressions *)

Section ConcreteCoverage.

Import Geometry Examples MoreExamples.

#[local] Existing Instance IntMatrix.ops.
#[local] Existing Instance Geometry.types.

Lemma add_order_of_terms_witness :
  error_terms ≡ₚ map_to_list (jacobians error_augmented)
  ∧ foldl (λ j term, add_term [[2]]%Z term.1 term.2 j)
      (jacobians s_augmented) error_terms
    = add [[2]]%Z (jacobians error_augmented) (jacobians s_augmented).
Proof.
  assert (error_terms ≡ₚ map_to_list (jacobians error_augmented)) as Hl.
  { replace (map_to_list (jacobians error_augmented))
      with [(3%N, [[-3]]%Z); (1%N, [[-2]]%Z)] by reflexivity.
    apply perm_swap. }
  split; [exact Hl|].
  exact (add_order_of_terms (M:=IntMatrix.ops) [[2]]%Z
           (jacobians error_augmented) (jacobians s_augmented)
           error_terms Hl).
Defined.

Lemma UnaryExpression_chain_rule_witness :
  outcome (augmented p x) = inr p_augmented
  ∧ ∃ a, outcome (augmented first_p x) = inr a
         ∧ value_of a = 4%Z
         ∧ jacobians a = mmul [[1; 0]]%Z <$> jacobians p_augmented
         ∧ constant a = false.
Proof.
  split; [reflexivity|].
  destruct (UnaryExpression_chain_rule first p x p_augmented eq_refl)
    as (a & Ha & Hv & Hj & _ & Hc & _).
  exists a. split; [exact Ha|]. split; [exact Hv|]. split; [exact Hj|].
  exact Hc.
Defined.

Lemma UnaryExpression_of_leaf_witness :
  x !! 2%N = Some (existT Point2 (4, 5)%Z)
  ∧ augmented first_p x = mkEval (inr first_p_augmented) [[true]].
Proof.
  split; [reflexivity|].
  exact (UnaryExpression_of_leaf (V:=types) (A:=Point2) first 2%N x
           (4, 5)%Z eq_refl).
Defined.

Lemma BinaryExpression_merge_witness :
  outcome (augmented first_p x) = inr first_p_augmented
  ∧ outcome (augmented s x) = inr s_augmented
  ∧ ∃ a, outcome (augmented mixed x) = inr a
         ∧ value_of a = 12%Z
         ∧ dom (jacobians a)
           = dom (jacobians first_p_augmented) ∪ dom (jacobians s_augmented)
         ∧ constant a = false.
Proof.
  split; [reflexivity|]. split; [reflexivity|].
  destruct (BinaryExpression_merge times first_p s x
              first_p_augmented s_augmented eq_refl eq_refl)
    as (a & Ha & Hv & _ & Hd & Hc & _).
  exists a. split; [exact Ha|]. split; [exact Hv|]. split; [exact Hd|].
  exact Hc.
Defined.

Lemma TernaryExpression_merge_witness :
  outcome (augmented s x) = inr s_augmented
  ∧ outcome (augmented d x) = inr d_augmented
  ∧ outcome (augmented b x) = inr b_augmented
  ∧ ∃ a, outcome (augmented error x) = inr a
         ∧ value_of a = 0%Z
         ∧ dom (jacobians a)
           = dom (jacobians s_augmented) ∪ dom (jacobians d_augmented).
Proof.
  split; [reflexivity|]. split; [reflexivity|]. split; [reflexivity|].
  destruct (TernaryExpression_merge residual s d b x
              s_augmented d_augmented b_augmented eq_refl eq_refl eq_refl)
    as (a & Ha & Hv & _ & Hd & _).
  exists a. split; [exact Ha|]. split; [exact Hv|]. exact Hd.
Defined.

Lemma one_call_per_node_witness :
  outcome (augmented mixed x) = inr mixed_augmented
  ∧ length (calls (augmented mixed x)) = 2
  ∧ length (calls (value mixed x)) = 2.
Proof.
  split; [reflexivity|].
  exact (one_call_per_node mixed x mixed_augmented eq_refl).
Defined.

Lemma keys_empty_constant_witness :
  keys error_constant = ∅
  ∧ ∃ a, outcome (augmented error_constant x) = inr a
         ∧ jacobians a = ∅
         ∧ constant a = true
         ∧ outcome (value error_constant x) = inr (value_of a)
         ∧ Forall (Forall (λ s, s = false))
             (calls (augmented error_constant x)).
Proof.
  assert (keys error_constant = ∅) as Hk by reflexivity.
  split; [exact Hk|].
  exact (keys_empty_constant error_constant x Hk).
Defined.

Lemma keys_determine_evaluation_witness :
  (∀ k, k ∈ keys error → x !! k = x_more !! k)
  ∧ value error x = value error x_more
  ∧ augmented error x = augmented error x_more.
Proof.
  assert (∀ k, k ∈ keys error → x !! k = x_more !! k) as Hk.
  { intros k Hk. unfold x_more. rewrite lookup_insert_ne; [done|].
    intros <-. revert Hk. unfold error, s, d, b. cbn [keys].
    rewrite !elem_of_union, !elem_of_singleton. intros [?|[?|?]]; done. }
  split; [exact Hk|].
  exact (keys_determine_evaluation error x x_more Hk).
Defined.

Lemma jacobians_keys_exact_witness :
  ternary_free mixed = true
  ∧ outcome (augmented mixed x) = inr mixed_augmented
  ∧ dom (jacobians mixed_augmented) = keys mixed
  ∧ (constant mixed_augmented = true ↔ keys mixed = ∅).
Proof.
  split; [reflexivity|]. split; [reflexivity|].
  exact (jacobians_keys_exact mixed x mixed_augmented eq_refl eq_refl).
Defined.

Lemma augmented_throws_at_child_witness :
  outcome (augmented absent x) = inl (ValuesKeyDoesNotExist 9)
  ∧ augmented absent_times_s x = mkEval (inl (ValuesKeyDoesNotExist 9)) [].
Proof.
  split; [reflexivity|].
  exact (proj1 (proj2 (augmented_throws_at_child (V:=types)))
           LieScalar LieScalar LieScalar times absent s x
           (ValuesKeyDoesNotExist 9) eq_refl).
Defined.

Lemma jacobians_keys_fixed_witness :
  outcome (augmented error x) = inr error_augmented
  ∧ outcome (augmented error x_other) = inr error_other_augmented
  ∧ dom (jacobians error_augmented) = dom (jacobians error_other_augmented)
  ∧ constant error_augmented = constant error_other_augmented
  ∧ calls (augmented error x) = calls (augmented error x_other).
Proof.
  split; [reflexivity|]. split; [reflexivity|].
  exact (jacobians_keys_fixed error x x_other
           error_augmented error_other_augmented eq_refl eq_refl).
Defined.

Lemma UnaryExpression_compose_witness :
  outcome (augmented p x) = inr p_augmented
  ∧ ∃ a, outcome (augmented twice_first_p x) = inr a
         ∧ value_of a = 8%Z
         ∧ jacobians a = {[ 2%N := [[2; 0]]%Z ]}
         ∧ calls (augmented twice_first_p x) = [[true]; [true]].
Proof.
  split; [reflexivity|].
  destruct (UnaryExpression_compose twice first p x p_augmented eq_refl)
    as (a & Ha & Hv & Hj & Hc).
  exists a. split; [exact Ha|]. split; [exact Hv|]. split; [exact Hj|].
  exact Hc.
Defined.

Lemma BinaryExpression_shared_witness :
  outcome (augmented s x) = inr s_augmented
  ∧ ∃ a, outcome (augmented square x) = inr a
         ∧ value_of a = 9%Z
         ∧ jacobians a = {[ 1%N := [[6]]%Z ]}
         ∧ calls (augmented square x) = [[true; true]].
Proof.
  split; [reflexivity|].
  destruct (BinaryExpression_shared times s x s_augmented eq_refl)
    as (a & Ha & Hv & Hj & Hc).
  exists a. split; [exact Ha|]. split; [exact Hv|]. split; [exact Hj|].
  exact Hc.
Defined.

End ConcreteCoverage.

(** ** The order of the pairs on concrete matrices *)

Section ConcreteOrder.

Import Geometry.

#[local] Existing Instance IntMatrix.ops.
#[local] Existing Instance Geometry.types.

Lemma fold_pairs_order_commutative_witness :
  jacobians (Augmented_ternary (0%Z : el LieScalar)
               [[-2]]%Z {[ 1%N := [[1%Z]] ]}
               [[-3]]%Z {[ 1%N := [[2%Z]] ]}
               [[-1]]%Z {[ 4%N := [[5%Z]] ]}) !! 1%N
  = fold_pairs [([[-2]]%Z, {[ 1%N := [[1%Z]] ]});
                ([[-3]]%Z, {[ 1%N := [[2%Z]] ]});
                ([[-1]]%Z, {[ 4%N := [[5%Z]] ]})] !! 1%N.
Proof.
  destruct (fold_pairs_order_commutative (M:=IntMatrix.ops) (V:=types)
              IntMatrix_add_comm) as (_ & _ & _ & Hternary).
  apply Hternary. vm_compute. lia.
Defined.

End ConcreteOrder.

Section DoubleOrder.

Import Geometry DoubleExamples.

#[local] Existing Instance FloatMatrix.ops.
#[local] Existing Instance Geometry.types.

(** On matrices of doubles, under a key that all three pairs hold, the
    constructor with three pairs stores [(1 + 1) + 2^53 = 2^53 + 2], and
    folding the same pairs in the order first, second, third stores
    [(2^53 + 1) + 1 = 2^53]; the two mappings differ. *)
Lemma fold_pairs_order_double :
  jacobians three_paths !! 1%N = Some [[9007199254740994%float]]
  ∧ fold_pairs three_pairs !! 1%N = Some [[9007199254740992%float]]
  ∧ jacobians three_paths ≠ fold_pairs three_pairs.
Proof.
  split; [reflexivity|]. split; [reflexivity|].
  intros Heq.
  apply (f_equal (λ jac, PrimFloat.ltb 9007199254740992%float
                           (FloatMatrix.entry (default [] (jac !! 1%N)))))
    in Heq.
  vm_compute in Heq. discriminate Heq.
Qed.

End DoubleOrder.
